(** * Activity-recommendation service: a shallow embedding of [server.js]

    The development follows the source file top to bottom: the strings and
    numbers of the host language, the per-client request quota
    ([checkRateLimit] and the daily sweep), the prompt, the call to the
    generative backend, the response parser, the weather advisor, the
    temperature utilities and the [/api/explore-destination] route.
    Definitions come first; the lemmas and theorems about them follow. *)

From Stdlib Require Import ZArith NArith Ascii String DecimalString Floats Lia.
From stdpp Require Import gmap list.

Local Open Scope nat_scope.

(** ** Strings of the host language

    A JavaScript string is a sequence of UTF-16 code units; [length] counts
    code units, and so does the model.  [lit] reads an ASCII literal. *)

Abbreviation jsstring := (list N).

Definition lit (s : string) : jsstring :=
  (λ a, N_of_ascii a) <$> list_ascii_of_string s.

(** The line feed, the bullet U+2022 and the degree sign U+00B0. *)
Definition LF : N := 10.
Definition BULLET : N := 8226.
Definition DEGREE : N := 176.

(** A string is truthy unless it is empty. *)
Definition truthy (s : jsstring) : bool :=
  match s with [] => false | _ :: _ => true end.

(** [pat] is a prefix of [s]: the test [String.prototype.includes] makes at
    each position. *)
Fixpoint startsWith (pat s : jsstring) : bool :=
  match pat, s with
  | [], _ => true
  | p :: pat', c :: s' => (p =? c)%N && startsWith pat' s'
  | _ :: _, [] => false
  end.

(** [s.includes(pat)]: [pat] occurs in [s] as a contiguous run. *)
Fixpoint includes (s pat : jsstring) : bool :=
  startsWith pat s ||
  match s with
  | [] => false
  | _ :: s' => includes s' pat
  end.

(** [toLowerCase] on the code units [A]..[Z]; every other unit is kept.  (No
    lower-case mapping of a character outside ASCII yields the letters of
    "rain", "storm" or "snow" next to each other, the only use made of the
    result.) *)
Definition lowerUnit (c : N) : N :=
  if (65 <=? c)%N && (c <=? 90)%N then (c + 32)%N else c.

Definition toLowerCase (s : jsstring) : jsstring := lowerUnit <$> s.

(** White space and line terminators: what [trim] removes and what [\s]
    matches in a regular expression. *)
Definition is_space (c : N) : bool :=
  ((9 <=? c) && (c <=? 13) || (c =? 32) || (c =? 160) || (c =? 5760)
   || (8192 <=? c) && (c <=? 8202) || (c =? 8232) || (c =? 8233)
   || (c =? 8239) || (c =? 8287) || (c =? 12288) || (c =? 65279))%N.

(** Decimal digits ([\d]) and ASCII letters. *)
Definition is_digit (c : N) : bool := ((48 <=? c) && (c <=? 57))%N.

Definition is_letter (c : N) : bool :=
  ((65 <=? c) && (c <=? 90) || (97 <=? c) && (c <=? 122))%N.

Fixpoint trimStart (s : jsstring) : jsstring :=
  match s with
  | [] => []
  | c :: s' => if is_space c then trimStart s' else s
  end.

Definition trimEnd (s : jsstring) : jsstring := reverse (trimStart (reverse s)).

Definition trim (s : jsstring) : jsstring := trimEnd (trimStart s).

(** [s.split('\n')]: the pieces between line feeds; the empty string gives
    one empty piece. *)
Fixpoint splitLines (s : jsstring) : list jsstring :=
  match s with
  | [] => [[]]
  | c :: s' =>
      if (c =? LF)%N then [] :: splitLines s'
      else match splitLines s' with
           | l :: ls => (c :: l) :: ls
           | [] => [[c]]
           end
  end.

(** [parts.join(sep)] *)
Fixpoint join (sep : jsstring) (parts : list jsstring) : jsstring :=
  match parts with
  | [] => []
  | [p] => p
  | p :: ps => p ++ sep ++ join sep ps
  end.

(** The decimal digits of a natural number, as [String] prints an integer. *)
Definition decimal (n : N) : jsstring :=
  lit (NilZero.string_of_uint (N.to_uint n)).

(** ** Numbers of the host language: binary64 floats

    [Math.round]: the nearest integer, a tie going up; NaN, the infinities,
    the zeros and the floats that are integers already are returned as they
    are, and a result between -0.5 and 0 keeps the sign of its argument. *)

(** floor (sm / 2^k + 1/2) for an integer [sm] and [0 < k]. *)
Definition roundHalfUp (sm k : Z) : Z := ((2 * sm + 2 ^ k) / 2 ^ (k + 1))%Z.

(** The mantissa of a finite float with its sign: the float is
    [signedMantissa s m * 2^e]. *)
Definition signedMantissa (s : bool) (m : positive) : Z :=
  if s then Z.neg m else Z.pos m.

(** The float of an integer of at most 53 bits; zero takes the sign [s]. *)
Definition integerFloat (s : bool) (n : Z) : float :=
  if (n =? 0)%Z then (if s then neg_zero else zero)
  else if (n <? 0)%Z then (- of_uint63 (Uint63.of_Z (- n)))%float
  else of_uint63 (Uint63.of_Z n).

Definition Math_round (x : float) : float :=
  match Prim2SF x with
  | S754_finite s m e =>
      if (0 <=? e)%Z then x
      else integerFloat s (roundHalfUp (signedMantissa s m) (- e))
  | _ => x
  end.

(** The integer a finite float stands for, when it is one. *)
Definition integerValue (m : positive) (e : Z) : option Z :=
  if (0 <=? e)%Z then Some (Z.pos m * 2 ^ e)%Z
  else if (Z.pos m mod 2 ^ (- e) =? 0)%Z then Some (Z.pos m / 2 ^ (- e))%Z
  else None.

(** [String(x)] for NaN, the infinities, the zeros and the integers up to
    2^53, which print as their decimal digits.  Other numbers print their
    shortest digits that read back as the same float, in part left to the
    implementation; the model leaves them out ([None]). *)
Definition Number_toString (x : float) : option jsstring :=
  match Prim2SF x with
  | S754_nan => Some (lit "NaN")
  | S754_infinity s => Some (if s then lit "-Infinity" else lit "Infinity")
  | S754_zero _ => Some (lit "0")
  | S754_finite s m e =>
      match integerValue m e with
      | Some n =>
          if (n <=? 2 ^ 53)%Z
          then Some ((if s then lit "-" else []) ++ decimal (Z.to_N n))
          else None
      | None => None
      end
  end.

(** The float nearest to 98.6, as the source text [98.6] reads. *)
Definition f98_6 : float := 0x1.8a66666666666p+6%float.

(** ** Completions: a call returns a value or throws an error, of which the
    program only ever reads the message. *)

Inductive completion (A : Type) : Type :=
  | Normal (a : A)
  | Throw (message : jsstring).
Arguments Normal {A} a.
Arguments Throw {A} message.

(** ** QuotaTracker: [requestCounts], [DAILY_LIMIT], [checkRateLimit] *)

Definition DAILY_LIMIT : nat := 60.

(** The template literal [`${ip}-${today}`]. *)
Definition quotaKey (ip today : jsstring) : jsstring :=
  ip ++ lit "-" ++ today.

(** What the middleware does with the request: [Next] hands it to the route
    ([next()]), [Reject429] answers 429 'Daily limit reached - try again
    tomorrow'. *)
Inductive verdict := Next | Reject429.

#[global] Instance verdict_eq_dec : EqDecision verdict.
Proof. solve_decision. Defined.

(** [today] is the value of [new Date().toDateString()] the call observes;
    [requestCounts.get(key) || 0] is [default 0].  The counts are the natural
    numbers the function itself stores. *)
Definition checkRateLimit (ip today : jsstring) (requestCounts : gmap jsstring nat)
  : verdict * gmap jsstring nat :=
  let key := quotaKey ip today in
  let count := default 0 (requestCounts !! key) in
  if decide (DAILY_LIMIT ≤ count) then (Reject429, requestCounts)
  else (Next, <[key := count + 1]> requestCounts).

(** The count stored for a caller on a day, as [checkRateLimit] reads it. *)
Definition countOf (ip today : jsstring) (counts : gmap jsstring nat) : nat :=
  default 0 (counts !! quotaKey ip today).

(** The body of the [setInterval] callback.  The loop visits every entry that
    is in the map when it starts (deleting the entry being visited does not
    disturb the iteration), so it is a fold over the keys present then. *)
Definition sweepStep (today : jsstring) (counts : gmap jsstring nat) (key : jsstring)
  : gmap jsstring nat :=
  if negb (includes key today) then delete key counts else counts.

Definition sweep (today : jsstring) (requestCounts : gmap jsstring nat)
  : gmap jsstring nat :=
  foldl (sweepStep today) requestCounts (fst <$> map_to_list requestCounts).

(** One calendar day of the tracker: requests of any callers and runs of the
    sweep, each observing the same [today]. *)
Inductive event :=
  | Attempt (ip : jsstring)
  | SweepRun.

#[global] Instance event_eq_dec : EqDecision event.
Proof. solve_decision. Defined.

Fixpoint runDay (today : jsstring) (events : list event) (counts : gmap jsstring nat)
  : list (jsstring * verdict) * gmap jsstring nat :=
  match events with
  | [] => ([], counts)
  | Attempt ip :: rest =>
      let '(v, counts') := checkRateLimit ip today counts in
      let '(log, final) := runDay today rest counts' in
      ((ip, v) :: log, final)
  | SweepRun :: rest => runDay today rest (sweep today counts)
  end.

(** How many times [ip] asked, and how many times it was let through. *)
Definition attempts (ip : jsstring) (events : list event) : nat :=
  length (filter (λ e, e = Attempt ip) events).

Definition passes (ip : jsstring) (log : list (jsstring * verdict)) : nat :=
  length (filter (λ o, o = (ip, Next)) log).

(** The two parts of a key as the program builds it.  A caller address, the
    text of an IP address, has no space in it; a day is what [toDateString]
    prints for a year of four digits, "Www Mmm DD YYYY". *)
Definition noSpace (ip : jsstring) : bool := forallb (λ c, negb (c =? 32)%N) ip.

Definition isDateString (d : jsstring) : bool :=
  match d with
  | [w1; w2; w3; s1; m1; m2; m3; s2; d1; d2; s3; y1; y2; y3; y4] =>
      is_letter w1 && is_letter w2 && is_letter w3 && (s1 =? 32)%N
      && is_letter m1 && is_letter m2 && is_letter m3 && (s2 =? 32)%N
      && is_digit d1 && is_digit d2 && (s3 =? 32)%N
      && is_digit y1 && is_digit y2 && is_digit y3 && is_digit y4
  | _ => false
  end.

(** ** The life of the tracker

    Requests and runs of the sweep in the order they happen, each with the
    day it observes; [runTrace] gives the counters they leave. *)
Inductive tick :=
  | RequestAt (ip today : jsstring)
  | SweepAt (today : jsstring).

Definition tickStep (counts : gmap jsstring nat) (t : tick) : gmap jsstring nat :=
  match t with
  | RequestAt ip today => (checkRateLimit ip today counts).2
  | SweepAt today => sweep today counts
  end.

Definition runTrace (trace : list tick) (counts : gmap jsstring nat)
  : gmap jsstring nat :=
  foldl tickStep counts trace.

(** An entry as the requests of [trace] leave it: a count between 1 and the
    limit, under a key one of them built. *)
Definition entryOk (trace : list tick) (key : jsstring) (n : nat) : Prop :=
  1 ≤ n ≤ DAILY_LIMIT ∧ ∃ ip today, RequestAt ip today ∈ trace ∧ key = quotaKey ip today.

(** ** PromptBuilder: [buildPrompt]

    [budget] and [timeOfYear] are strings when present, [interests] an array
    of strings, [groupSize] a non-negative integer; a field that is absent or
    falsy adds no clause.  The source reads [groupSize] as a float and prints
    it with [String]: the digits of [decimal] are its text for the whole
    numbers up to 2^53, larger ones lie outside this model.  So do a
    [clientPreferences] that is [null] and an [interests] that is not an
    array, on which the source throws a [TypeError] before any call is
    made. *)

Record clientPreferences := {
  budget : option jsstring;
  interests : list jsstring;
  groupSize : option N
}.

(** An absent [clientPreferences] defaults to the empty object. *)
Definition noPreferences : clientPreferences :=
  {| budget := None; interests := []; groupSize := None |}.

(** [budgetText[b]] inside the template: a key outside the table prints as
    [undefined].  The table is an object literal, so the names it inherits
    from [Object.prototype] ([inheritedNames] below) are looked up there
    instead; they lie outside this model. *)
Definition budgetText (b : jsstring) : jsstring :=
  if decide (b = lit "low") then lit "budget-friendly"
  else if decide (b = lit "medium") then lit "moderately priced"
  else if decide (b = lit "high") then lit "premium"
  else lit "undefined".

(** The property names every object literal inherits. *)
Definition inheritedNames : list jsstring :=
  [ lit "constructor"; lit "hasOwnProperty"; lit "isPrototypeOf";
    lit "propertyIsEnumerable"; lit "toLocaleString"; lit "toString";
    lit "valueOf"; lit "__proto__"; lit "__defineGetter__";
    lit "__defineSetter__"; lit "__lookupGetter__"; lit "__lookupSetter__" ].

Definition closingBlock : jsstring :=
  [LF; LF] ++ lit "Please provide:" ++ [LF]
  ++ lit "1. Top 10 specific activities with brief descriptions" ++ [LF]
  ++ lit "2. Local tips and insights" ++ [LF]
  ++ lit "3. Practical information (costs, timing, how to book)" ++ [LF]
  ++ lit "4. Hidden gems locals recommend" ++ [LF; LF]
  ++ lit "Format your response clearly with sections and bullet points.".

Definition buildPrompt (destination : jsstring) (timeOfYear : option jsstring)
    (prefs : option clientPreferences) : jsstring :=
  let prefs := default noPreferences prefs in
  let prompt :=
    lit "You are a travel expert. Give me detailed activity recommendations for "
    ++ destination ++ lit "." in
  let prompt :=
    match timeOfYear with
    | Some t =>
        if truthy t then prompt ++ lit " The visit is planned for " ++ t ++ lit "."
        else prompt
    | None => prompt
    end in
  let prompt :=
    match budget prefs with
    | Some b =>
        if truthy b
        then prompt ++ lit " Focus on " ++ budgetText b ++ lit " activities."
        else prompt
    | None => prompt
    end in
  let prompt :=
    if decide (0 < length (interests prefs))
    then prompt ++ lit " The traveler is interested in: "
         ++ join (lit ", ") (interests prefs) ++ lit "."
    else prompt in
  let prompt :=
    match groupSize prefs with
    | Some g =>
        if (g =? 0)%N then prompt
        else prompt ++ lit " This is for a group of " ++ decimal g ++ lit " people."
    | None => prompt
    end in
  prompt ++ closingBlock.

(** The clauses of the prompt, each on the field it reads. *)
Definition openingSentence (destination : jsstring) : jsstring :=
  lit "You are a travel expert. Give me detailed activity recommendations for "
  ++ destination ++ lit ".".

Definition timeClause (timeOfYear : option jsstring) : jsstring :=
  match timeOfYear with
  | Some t => if truthy t then lit " The visit is planned for " ++ t ++ lit "." else []
  | None => []
  end.

Definition budgetClause (budget : option jsstring) : jsstring :=
  match budget with
  | Some b => if truthy b then lit " Focus on " ++ budgetText b ++ lit " activities." else []
  | None => []
  end.

Definition interestsClause (interests : list jsstring) : jsstring :=
  match interests with
  | [] => []
  | _ :: _ => lit " The traveler is interested in: " ++ join (lit ", ") interests ++ lit "."
  end.

Definition groupClause (groupSize : option N) : jsstring :=
  match groupSize with
  | Some g =>
      if (g =? 0)%N then []
      else lit " This is for a group of " ++ decimal g ++ lit " people."
  | None => []
  end.

(** ** The generative backend: [getRecommendations]

    What the one outbound call can bring back: a success response with the
    text of its first choice, a response that is not [ok] with the message of
    its error body ([error.error?.message], when there is one), or a transport
    failure that makes [fetch] throw. *)
Inductive backendReply :=
  | Completion (content : jsstring)
  | ErrorStatus (message : option jsstring)
  | TransportFailure (message : jsstring).

(** [error.error?.message || 'OpenAI API error'] *)
Definition backendErrorMessage (message : option jsstring) : jsstring :=
  match message with
  | Some m => if truthy m then m else lit "OpenAI API error"
  | None => lit "OpenAI API error"
  end.

(** [process.env.OPENAI_API_KEY] is truthy: set and not empty. *)
Definition hasCredential (apiKey : option jsstring) : bool :=
  truthy (default [] apiKey).

(** [apiKey] is [process.env.OPENAI_API_KEY]; [sent] is the log of the
    prompts posted to the backend so far, which the call extends when, and
    only when, it reaches [fetch]. *)
Definition getRecommendations (apiKey : option jsstring)
    (backend : jsstring → backendReply) (prompt : jsstring) (sent : list jsstring)
  : completion jsstring * list jsstring :=
  if negb (hasCredential apiKey)
  then (Throw (lit "OpenAI API key not configured"), sent)
  else
    let sent := sent ++ [prompt] in
    match backend prompt with
    | Completion content => (Normal content, sent)
    | ErrorStatus message => (Throw (backendErrorMessage message), sent)
    | TransportFailure message => (Throw message, sent)
    end.

(** ** ResponseParser: [parseResponse] *)

Definition is_bullet (c : N) : bool := ((c =? 45) || (c =? BULLET) || (c =? 42))%N.

(** [\s+] at the head of [s]: what follows the white space, when there is at
    least one unit of it. *)
Definition afterSpaces (s : jsstring) : option jsstring :=
  match s with
  | c :: s' => if is_space c then Some (trimStart s') else None
  | [] => None
  end.

Fixpoint dropDigits (s : jsstring) : jsstring :=
  match s with
  | [] => []
  | c :: s' => if is_digit c then dropDigits s' else s
  end.

(** What follows the match of [/^[-•*]\s+/], when the line has one. *)
Definition afterBullet (line : jsstring) : option jsstring :=
  match line with
  | c :: s => if is_bullet c then afterSpaces s else None
  | [] => None
  end.

(** What follows the match of [/^\d+\.\s+/], when the line has one. *)
Definition afterNumber (line : jsstring) : option jsstring :=
  match line with
  | c :: s =>
      if is_digit c
      then match dropDigits s with
           | d :: s' => if (d =? 46)%N then afterSpaces s' else None
           | [] => None
           end
      else None
  | [] => None
  end.

(** [line.replace(re, '')] for the two anchored expressions. *)
Definition replaceBullet (line : jsstring) : jsstring :=
  default line (afterBullet line).

Definition replaceNumber (line : jsstring) : jsstring :=
  default line (afterNumber line).

(** The body of the [for] loop: [tips] is the array being filled. *)
Definition parseLine (tips : list jsstring) (line : jsstring) : list jsstring :=
  let line := trim line in
  if bool_decide (is_Some (afterBullet line)) || bool_decide (is_Some (afterNumber line))
  then
    let tip := replaceNumber (replaceBullet line) in
    if decide (10 < length tip) then tips ++ [tip] else tips
  else tips.

Definition parseResponse (rawResponse : jsstring) : list jsstring :=
  take 10 (foldl parseLine [] (splitLines rawResponse)).

(** [rest] does not begin with white space: where a greedy [\s+] stops. *)
Definition noLeadingSpace (rest : jsstring) : Prop :=
  match rest with
  | c :: _ => is_space c = false
  | [] => True
  end.

(** [s] does not end with white space. *)
Definition noTrailingSpace (s : jsstring) : Prop := noLeadingSpace (reverse s).

(** A tip is kept when it is longer than 10 code units. *)
Definition keepLong (tip : jsstring) : option jsstring :=
  if decide (10 < length tip) then Some tip else None.

(** ** The parser read line by line

    [tipOfLine] is what one turn of the loop of [parseResponse] adds for a
    line.  [spec_tipOfLine] and [spec_parse] follow the words of the
    specification: a qualifying line loses the marker that made it qualify,
    and nothing else. *)

Definition tipOfLine (line : jsstring) : option jsstring :=
  let line := trim line in
  if bool_decide (is_Some (afterBullet line)) || bool_decide (is_Some (afterNumber line))
  then keepLong (replaceNumber (replaceBullet line))
  else None.

Definition spec_stripMarker (line : jsstring) : option jsstring :=
  match afterBullet line with
  | Some rest => Some rest
  | None => afterNumber line
  end.

Definition spec_tipOfLine (line : jsstring) : option jsstring :=
  match spec_stripMarker (trim line) with
  | Some tip => keepLong tip
  | None => None
  end.

Definition spec_parse (rawText : jsstring) : list jsstring :=
  take 10 (omap spec_tipOfLine (splitLines rawText)).

(** The test vector of the specification: three lines. *)
Definition threeLines : jsstring :=
  lit "1. Visit the old town" ++ [LF] ++ lit "- See the cathedral" ++ [LF] ++ lit "* ok".

(** ** WeatherAdvisor: [getWeatherRecommendations] *)

(** What the request body holds under [conditions]: nothing, [null], a
    string, or a value of another kind (a number, a boolean, an array, an
    object), which has no [toLowerCase] method. *)
Inductive conditionsValue :=
  | Absent
  | Null
  | Text (s : jsstring)
  | Other.

(** A reading: the numeric fields as the comparisons see them, a float, NaN
    for a field that is missing. *)
Record weatherData := {
  temp : float;
  conditions : conditionsValue;
  windspeed : float;
  uvindex : float
}.

Record advice := {
  recommendation : jsstring;
  message : jsstring;
  reason : jsstring;
  color : jsstring
}.

#[global] Instance advice_eq_dec : EqDecision advice.
Proof. solve_decision. Defined.

(** [conditions?.toLowerCase() || ''] *)
Definition lowerConditions (c : conditionsValue) : completion jsstring :=
  match c with
  | Absent | Null => Normal []
  | Text s => Normal (toLowerCase s)
  | Other => Throw (lit "conditions?.toLowerCase is not a function")
  end.

Definition getWeatherRecommendations (w : weatherData) : completion advice :=
  match lowerConditions (conditions w) with
  | Throw e => Throw e
  | Normal lowerConditions =>
      let isBadWeather :=
        includes lowerConditions (lit "rain")
        || includes lowerConditions (lit "storm")
        || includes lowerConditions (lit "snow") in
      let isVeryWindy := (25 <? windspeed w)%float in
      let isVeryHot := (95 <? temp w)%float in
      let isVeryCold := (temp w <? 25)%float in
      let isHighUV := (8 <? uvindex w)%float in
      if isBadWeather then
        Normal {| recommendation := lit "stay-indoors";
                  message := lit "Stay indoors";
                  reason := lit "Poor weather conditions";
                  color := lit "#F57C00" |}
      else if isVeryWindy then
        Normal {| recommendation := lit "stay-indoors";
                  message := lit "Stay indoors";
                  reason := lit "Very windy";
                  color := lit "#F57C00" |}
      else if isVeryHot then
        Normal {| recommendation := lit "limited-outdoor";
                  message := lit "Limited outdoor time";
                  reason := lit "Extreme heat - stay hydrated";
                  color := lit "#FF5722" |}
      else if isVeryCold then
        Normal {| recommendation := lit "limited-outdoor";
                  message := lit "Limited outdoor time";
                  reason := lit "Extreme cold - dress warmly";
                  color := lit "#2196F3" |}
      else if (70 <=? temp w)%float && (temp w <=? 85)%float && negb isHighUV then
        Normal {| recommendation := lit "perfect-outdoor";
                  message := lit "Perfect for outdoor activities";
                  reason := lit "Ideal conditions";
                  color := lit "#4CAF50" |}
      else if (60 <=? temp w)%float && (temp w <=? 90)%float then
        Normal {| recommendation := lit "good-outdoor";
                  message := lit "Great for outdoor activities";
                  reason := if isHighUV then lit "Good weather - use sun protection"
                            else lit "Good conditions";
                  color := lit "#4CAF50" |}
      else
        Normal {| recommendation := lit "moderate-outdoor";
                  message := lit "Moderate outdoor conditions";
                  reason := lit "Fair weather";
                  color := lit "#FF9800" |}
  end.

(** The advices the function can return, one for each [return], the two
    reasons of good-outdoor apart. *)
Definition adviceTable : list advice :=
  [ {| recommendation := lit "stay-indoors"; message := lit "Stay indoors";
       reason := lit "Poor weather conditions"; color := lit "#F57C00" |};
    {| recommendation := lit "stay-indoors"; message := lit "Stay indoors";
       reason := lit "Very windy"; color := lit "#F57C00" |};
    {| recommendation := lit "limited-outdoor"; message := lit "Limited outdoor time";
       reason := lit "Extreme heat - stay hydrated"; color := lit "#FF5722" |};
    {| recommendation := lit "limited-outdoor"; message := lit "Limited outdoor time";
       reason := lit "Extreme cold - dress warmly"; color := lit "#2196F3" |};
    {| recommendation := lit "perfect-outdoor";
       message := lit "Perfect for outdoor activities";
       reason := lit "Ideal conditions"; color := lit "#4CAF50" |};
    {| recommendation := lit "good-outdoor";
       message := lit "Great for outdoor activities";
       reason := lit "Good weather - use sun protection"; color := lit "#4CAF50" |};
    {| recommendation := lit "good-outdoor";
       message := lit "Great for outdoor activities";
       reason := lit "Good conditions"; color := lit "#4CAF50" |};
    {| recommendation := lit "moderate-outdoor";
       message := lit "Moderate outdoor conditions";
       reason := lit "Fair weather"; color := lit "#FF9800" |} ].

(** ** The advisor as the specification words it

    Six rules tried in order, the first that applies giving the
    recommendation and the reason, and a seventh for what is left. *)

Definition sameLetter (a b : N) : bool := (lowerUnit a =? lowerUnit b)%N.

Fixpoint startsWithAnyCase (word s : jsstring) : bool :=
  match word, s with
  | [], _ => true
  | a :: word', c :: s' => sameLetter a c && startsWithAnyCase word' s'
  | _ :: _, [] => false
  end.

(** [s] contains [word], letters compared without regard to case. *)
Fixpoint containsAnyCase (s word : jsstring) : bool :=
  startsWithAnyCase word s ||
  match s with
  | [] => false
  | _ :: s' => containsAnyCase s' word
  end.

(** Missing conditions are treated as the empty string. *)
Definition conditionsText (w : weatherData) : jsstring :=
  match conditions w with
  | Text s => s
  | _ => []
  end.

Record rule := {
  applies : weatherData → bool;
  gives : weatherData → jsstring * jsstring
}.

Definition spec_rules : list rule :=
  [ {| applies w := containsAnyCase (conditionsText w) (lit "rain")
                    || containsAnyCase (conditionsText w) (lit "storm")
                    || containsAnyCase (conditionsText w) (lit "snow");
       gives _ := (lit "stay-indoors", lit "Poor weather conditions") |};
    {| applies w := (25 <? windspeed w)%float;
       gives _ := (lit "stay-indoors", lit "Very windy") |};
    {| applies w := (95 <? temp w)%float;
       gives _ := (lit "limited-outdoor", lit "Extreme heat - stay hydrated") |};
    {| applies w := (temp w <? 25)%float;
       gives _ := (lit "limited-outdoor", lit "Extreme cold - dress warmly") |};
    {| applies w := (70 <=? temp w)%float && (temp w <=? 85)%float
                    && (uvindex w <=? 8)%float;
       gives _ := (lit "perfect-outdoor", lit "Ideal conditions") |};
    {| applies w := (60 <=? temp w)%float && (temp w <=? 90)%float;
       gives w := (lit "good-outdoor",
                   if (8 <? uvindex w)%float
                   then lit "Good weather - use sun protection"
                   else lit "Good conditions") |} ].

Definition spec_otherwise : jsstring * jsstring :=
  (lit "moderate-outdoor", lit "Fair weather").

Fixpoint firstMatch (rules : list rule) (w : weatherData) : jsstring * jsstring :=
  match rules with
  | [] => spec_otherwise
  | r :: rules' => if applies r w then gives r w else firstMatch rules' w
  end.

Definition spec_advise (w : weatherData) : jsstring * jsstring :=
  firstMatch spec_rules w.

(** The same table with the fifth rule as the code tests it: the uvindex is
    not above 8, which a reading without uvindex satisfies, where
    [uvindex <= 8] asks for a number. *)
Definition spec_rules_amended : list rule :=
  [ {| applies w := containsAnyCase (conditionsText w) (lit "rain")
                    || containsAnyCase (conditionsText w) (lit "storm")
                    || containsAnyCase (conditionsText w) (lit "snow");
       gives _ := (lit "stay-indoors", lit "Poor weather conditions") |};
    {| applies w := (25 <? windspeed w)%float;
       gives _ := (lit "stay-indoors", lit "Very windy") |};
    {| applies w := (95 <? temp w)%float;
       gives _ := (lit "limited-outdoor", lit "Extreme heat - stay hydrated") |};
    {| applies w := (temp w <? 25)%float;
       gives _ := (lit "limited-outdoor", lit "Extreme cold - dress warmly") |};
    {| applies w := (70 <=? temp w)%float && (temp w <=? 85)%float
                    && negb (8 <? uvindex w)%float;
       gives _ := (lit "perfect-outdoor", lit "Ideal conditions") |};
    {| applies w := (60 <=? temp w)%float && (temp w <=? 90)%float;
       gives w := (lit "good-outdoor",
                   if (8 <? uvindex w)%float
                   then lit "Good weather - use sun protection"
                   else lit "Good conditions") |} ].

Definition spec_advise_amended (w : weatherData) : jsstring * jsstring :=
  firstMatch spec_rules_amended w.

(** ** The route [/api/weather-recommendations]

    [body] is what the request body holds under [weatherData]: [None] when
    it is missing or falsy, the reading otherwise.  The [catch] block turns a
    thrown error into the 500 answer with its message. *)
Inductive weatherResponse :=
  | WeatherDataRequired
      (* 400 { error: 'Weather data is required' } *)
  | WeatherFailed (message : jsstring)
      (* 500 { error: 'Failed to get weather recommendations', message } *)
  | WeatherAdvice (data : advice).
      (* 200 { success: true, data } *)

Definition weatherRecommendations (body : option weatherData) : weatherResponse :=
  match body with
  | None => WeatherDataRequired
  | Some w =>
      match getWeatherRecommendations w with
      | Normal recommendations => WeatherAdvice recommendations
      | Throw message => WeatherFailed message
      end
  end.

(** ** TemperatureConverter: [convertTemperature], [getTemperatureDisplay] *)

Definition convertTemperature (tempF : float) (unit : jsstring) : float :=
  if decide (unit = lit "C") then Math_round ((tempF - 32) * 5 / 9)%float
  else Math_round tempF.

(** The template [`${convertedTemp}°${unit}`]; [None] when the converted
    number is outside the range [Number_toString] covers. *)
Definition getTemperatureDisplay (temp : float) (unit : jsstring) : option jsstring :=
  let convertedTemp := convertTemperature temp unit in
  match Number_toString convertedTemp with
  | Some digits => Some (digits ++ [DEGREE] ++ unit)
  | None => None
  end.

(** ** The route [/api/explore-destination] *)

Record request := {
  ip : jsstring;
  destination : option jsstring;
  timeOfYear : option jsstring;
  preferences : option clientPreferences
}.

(** The state the route reads and writes: the counters of the quota tracker
    and the log of the prompts posted to the backend. *)
Record world := {
  requestCounts : gmap jsstring nat;
  sent : list jsstring
}.

(** The answers of the route, by status and body. *)
Inductive response :=
  | TooManyRequests
      (* 429 { error: 'Daily limit reached - try again tomorrow' } *)
  | DestinationRequired
      (* 400 { error: 'Destination is required' } *)
  | ServiceConfigurationError
      (* 500 { error: 'Service configuration error' } *)
  | FailedToGetRecommendations (message : jsstring)
      (* 500 { error: 'Failed to get recommendations', message } *)
  | Recommendations (generalTips : list jsstring) (rawResponse : jsstring).
      (* 200 { success: true, data: { recommendations: { generalTips }, rawResponse } } *)

Definition fallbackTips : list jsstring :=
  [ lit "Visit the main tourist information center";
    lit "Ask your hotel concierge for local recommendations";
    lit "Check local event calendars for festivals";
    lit "Try local restaurants recommended by residents";
    lit "Explore nearby neighborhoods on foot" ].

(** [if (generalTips.length < 5) generalTips.push(...)] *)
Definition ensureEnough (generalTips : list jsstring) : list jsstring :=
  if decide (length generalTips < 5) then generalTips ++ fallbackTips
  else generalTips.

(** The [catch] block of the route. *)
Definition handleError (message : jsstring) : response :=
  if includes message (lit "API key") then ServiceConfigurationError
  else FailedToGetRecommendations message.

(** [destination] is truthy: the field is there and not empty. *)
Definition hasDestination (req : request) : bool :=
  truthy (default [] (destination req)).

(** [buildPrompt(destination, timeOfYear, clientPreferences)] on the fields
    of the request body. *)
Definition promptOf (req : request) : jsstring :=
  buildPrompt (default [] (destination req)) (timeOfYear req) (preferences req).

(** The route handler proper, run once [checkRateLimit] has called [next()]. *)
Definition exploreHandler (apiKey : option jsstring)
    (backend : jsstring → backendReply) (req : request) (sent : list jsstring)
  : response * list jsstring :=
  if negb (hasDestination req) then (DestinationRequired, sent)
  else
    let prompt := promptOf req in
    match getRecommendations apiKey backend prompt sent with
    | (Throw message, sent) => (handleError message, sent)
    | (Normal rawResponse, sent) =>
        let generalTips := ensureEnough (parseResponse rawResponse) in
        (Recommendations generalTips rawResponse, sent)
    end.

(** [app.post('/api/explore-destination', checkRateLimit, handler)]: the
    middleware first, the handler when it calls [next()]. *)
Definition exploreDestination (apiKey : option jsstring)
    (backend : jsstring → backendReply) (today : jsstring) (req : request) (w : world)
  : response * world :=
  match checkRateLimit (ip req) today (requestCounts w) with
  | (Reject429, counts) => (TooManyRequests, {| requestCounts := counts; sent := sent w |})
  | (Next, counts) =>
      let '(res, sent') := exploreHandler apiKey backend req (sent w) in
      (res, {| requestCounts := counts; sent := sent' |})
  end.

(** ** Sample data

    A caller, a day, a request for Paris, a fresh state, and backend texts
    with three and with twelve tips. *)
Definition sampleIp : jsstring := lit "203.0.113.7".

Definition sampleDay : jsstring := lit "Mon Nov 02 2026".

Definition parisRequest : request :=
  {| ip := sampleIp; destination := Some (lit "Paris");
     timeOfYear := None; preferences := None |}.

Definition freshWorld : world := {| requestCounts := ∅; sent := [] |}.

Definition threeTips : jsstring :=
  lit "1. Visit the old town" ++ [LF] ++ lit "- See the cathedral" ++ [LF]
  ++ lit "* Walk along the river bank".

Definition twelveTips : jsstring :=
  join [LF] (replicate 12 (lit "- Take a walk in the park")).

(** * Properties *)

(** ** Strings *)

Section StringFacts.

Implicit Types s pat pre suf : jsstring.

Lemma startsWith_true pat s :
  startsWith pat s = true ↔ ∃ suf, s = pat ++ suf.
Proof.
  revert s. induction pat as [|p pat IH]; intros s; simpl.
  - split; [intros _; by exists s | done].
  - destruct s as [|c s].
    + split; [done | intros [suf Hs]; discriminate].
    + rewrite andb_true_iff, N.eqb_eq, IH. split.
      * intros [-> [suf ->]]. by exists suf.
      * intros [suf Hs]. injection Hs as -> ->. eauto.
Qed.

Lemma includes_true s pat :
  includes s pat = true ↔ ∃ pre suf, s = pre ++ pat ++ suf.
Proof.
  induction s as [|c s IH]; simpl.
  - rewrite orb_false_r, startsWith_true. split.
    + intros [suf Hs]. by exists [], suf.
    + intros (pre & suf & Hs). destruct pre; [by exists suf | discriminate].
  - rewrite orb_true_iff, startsWith_true, IH. split.
    + intros [[suf Hs] | (pre & suf & ->)].
      * by exists [], suf.
      * by exists (c :: pre), suf.
    + intros (pre & suf & Hs). destruct pre as [|c' pre]; simpl in Hs.
      * left. by exists suf.
      * right. injection Hs as -> ->. by exists pre, suf.
Qed.

Lemma includes_false s pat :
  includes s pat = false ↔ ∀ pre suf, s ≠ pre ++ pat ++ suf.
Proof.
  rewrite <- not_true_iff_false, includes_true. split.
  - intros Hn pre suf Hs. apply Hn. eauto.
  - intros Hn (pre & suf & Hs). by eapply Hn.
Qed.

Lemma includes_suffix pre pat : includes (pre ++ pat) pat = true.
Proof. apply includes_true. exists pre, []. by rewrite app_nil_r. Qed.

End StringFacts.

(** ** QuotaTracker *)

Section QuotaTracker.

Implicit Types (ip today key : jsstring) (counts : gmap jsstring nat).

(** A key built on [today] contains [today]. *)
Lemma includes_quotaKey ip today : includes (quotaKey ip today) today = true.
Proof.
  unfold quotaKey. rewrite app_assoc. apply includes_suffix.
Qed.

Lemma quotaKey_inj ip ip' today : quotaKey ip today = quotaKey ip' today → ip = ip'.
Proof.
  unfold quotaKey. rewrite !app_assoc. intros H.
  apply (inj (.++ today)) in H. by apply (inj (.++ lit "-")) in H.
Qed.

(** The fold of the sweep over any list of keys. *)
Lemma sweep_fold_lookup today keys counts key :
  foldl (sweepStep today) counts keys !! key =
  if bool_decide (key ∈ keys) && negb (includes key today) then None
  else counts !! key.
Proof.
  revert counts. induction keys as [|k keys IH]; intros counts; simpl.
  - done.
  - rewrite IH. unfold sweepStep.
    destruct (decide (key = k)) as [->|Hne].
    + rewrite (bool_decide_eq_true_2 (k ∈ k :: keys)) by left. simpl.
      destruct (includes k today); simpl.
      * by rewrite andb_false_r.
      * rewrite lookup_delete_eq. by destruct (_ && _).
    + assert (bool_decide (key ∈ k :: keys) = bool_decide (key ∈ keys)) as ->.
      { apply bool_decide_ext. rewrite elem_of_cons.
        split; [by intros [?|?] | by right]. }
      destruct (negb (includes k today)); [|done].
      by rewrite lookup_delete_ne.
Qed.

(** The sweep keeps exactly the entries whose key contains [today]. *)
Lemma sweep_lookup today counts key :
  sweep today counts !! key =
  if includes key today then counts !! key else None.
Proof.
  unfold sweep. rewrite sweep_fold_lookup.
  destruct (includes key today); simpl.
  - by rewrite andb_false_r.
  - rewrite andb_true_r. case_bool_decide as Hin; [done|].
    destruct (counts !! key) as [n|] eqn:Hk; [|done].
    exfalso. apply Hin. apply list_elem_of_fmap.
    exists (key, n). split; [done|]. by apply elem_of_map_to_list.
Qed.

Lemma sweep_quotaKey today counts ip :
  sweep today counts !! quotaKey ip today = counts !! quotaKey ip today.
Proof. by rewrite sweep_lookup, includes_quotaKey. Qed.

(** The two outcomes of [checkRateLimit]. *)
Lemma checkRateLimit_reject ip today counts :
  DAILY_LIMIT ≤ default 0 (counts !! quotaKey ip today) →
  checkRateLimit ip today counts = (Reject429, counts).
Proof. intros H. unfold checkRateLimit. simpl. by rewrite decide_True. Qed.

Lemma checkRateLimit_next ip today counts :
  default 0 (counts !! quotaKey ip today) < DAILY_LIMIT →
  checkRateLimit ip today counts =
  (Next, <[quotaKey ip today := default 0 (counts !! quotaKey ip today) + 1]> counts).
Proof. intros H. unfold checkRateLimit. simpl. rewrite decide_False; [done | lia]. Qed.

Lemma checkRateLimit_cases ip today counts :
  let n := default 0 (counts !! quotaKey ip today) in
  (DAILY_LIMIT ≤ n ∧ checkRateLimit ip today counts = (Reject429, counts)) ∨
  (n < DAILY_LIMIT ∧
   checkRateLimit ip today counts = (Next, <[quotaKey ip today := n + 1]> counts)).
Proof.
  intros n. destruct (decide (DAILY_LIMIT ≤ n)).
  - left. split; [done|]. by apply checkRateLimit_reject.
  - right. split; [lia|]. apply checkRateLimit_next. fold n. lia.
Qed.

Lemma countOf_sweep ip today counts :
  countOf ip today (sweep today counts) = countOf ip today counts.
Proof. unfold countOf. by rewrite sweep_quotaKey. Qed.

Lemma countOf_insert_other ip ip' today counts n :
  ip' ≠ ip →
  countOf ip today (<[quotaKey ip' today := n]> counts) = countOf ip today counts.
Proof.
  intros Hne. unfold countOf. rewrite lookup_insert_ne; [done|].
  intros H. by apply quotaKey_inj in H.
Qed.

Lemma countOf_insert_same ip today counts n :
  countOf ip today (<[quotaKey ip today := n]> counts) = n.
Proof. unfold countOf. by rewrite lookup_insert_eq. Qed.

Lemma passes_cons ip ip' v log :
  passes ip ((ip', v) :: log) =
  (if decide ((ip', v) = (ip, Next)) then 1 else 0) + passes ip log.
Proof. unfold passes. rewrite filter_cons. by destruct (decide _). Qed.

Lemma attempts_cons ip e events :
  attempts ip (e :: events) =
  (if decide (e = Attempt ip) then 1 else 0) + attempts ip events.
Proof. unfold attempts. rewrite filter_cons. by destruct (decide _). Qed.

Lemma runDay_attempt today ip' events counts :
  runDay today (Attempt ip' :: events) counts =
  let step := checkRateLimit ip' today counts in
  let rest := runDay today events step.2 in
  ((ip', step.1) :: rest.1, rest.2).
Proof.
  simpl. destruct (checkRateLimit ip' today counts) as [v counts']. simpl.
  by destruct (runDay today events counts').
Qed.

(** Over a day a caller is let through at most as many times as its count
    is short of the limit. *)
Lemma runDay_passes ip today events counts :
  passes ip (runDay today events counts).1 ≤ DAILY_LIMIT - countOf ip today counts.
Proof.
  revert counts. induction events as [|[ip'|] events IH]; intros counts.
  - unfold passes. cbn [runDay fst]. rewrite filter_nil. cbn [length]. lia.
  - rewrite runDay_attempt. cbv zeta. cbn [fst snd]. rewrite passes_cons.
    destruct (checkRateLimit_cases ip' today counts) as [[Hn ->]|[Hn ->]];
      fold (countOf ip' today counts) in Hn |- *; cbn [fst snd].
    + rewrite decide_False by congruence. apply IH.
    + specialize (IH (<[quotaKey ip' today := countOf ip' today counts + 1]> counts)).
      destruct (decide (ip' = ip)) as [->|Hne].
      * rewrite decide_True by done. rewrite countOf_insert_same in IH. lia.
      * rewrite decide_False by congruence.
        rewrite countOf_insert_other in IH by done. lia.
  - cbn [runDay]. rewrite <- (countOf_sweep ip today counts). apply IH.
Qed.

(** Every attempt of a caller moves its count one step towards the limit,
    and nothing during the day moves it back. *)
Lemma runDay_count ip today events counts :
  DAILY_LIMIT `min` (countOf ip today counts + attempts ip events)
  ≤ countOf ip today (runDay today events counts).2.
Proof.
  revert counts. induction events as [|[ip'|] events IH]; intros counts.
  - unfold attempts. rewrite filter_nil. cbn [runDay snd length]. lia.
  - rewrite runDay_attempt, attempts_cons. cbv zeta. cbn [fst snd].
    destruct (checkRateLimit_cases ip' today counts) as [[Hn ->]|[Hn ->]];
      fold (countOf ip' today counts) in Hn |- *; cbn [fst snd].
    + specialize (IH counts).
      destruct (decide (Attempt ip' = Attempt ip)) as [[= ->]|]; lia.
    + specialize (IH (<[quotaKey ip' today := countOf ip' today counts + 1]> counts)).
      destruct (decide (Attempt ip' = Attempt ip)) as [[= ->]|Hne].
      * rewrite countOf_insert_same in IH. lia.
      * rewrite countOf_insert_other in IH by congruence. lia.
  - rewrite attempts_cons, decide_False by done. cbn [runDay].
    rewrite <- (countOf_sweep ip today counts). apply IH.
Qed.

End QuotaTracker.

(** C1.  Within one calendar day, whatever the counters hold when it starts
    and whatever other callers and sweep runs come in between, a caller is
    let through by [checkRateLimit] at most 60 times; once it has asked 60
    times that day its next request is rejected; and a rejected request
    leaves the counters as they were. *)
Theorem quota_never_exceeded (ip today : jsstring) (events : list event)
    (counts : gmap jsstring nat) :
  passes ip (runDay today events counts).1 ≤ 60
  ∧ (60 ≤ attempts ip events →
     (checkRateLimit ip today (runDay today events counts).2).1 = Reject429)
  ∧ ((checkRateLimit ip today counts).1 = Reject429 →
     (checkRateLimit ip today counts).2 = counts).
Proof.
  split; [|split].
  - pose proof (runDay_passes ip today events counts) as H.
    unfold DAILY_LIMIT in H. lia.
  - intros Hn. pose proof (runDay_count ip today events counts) as H.
    rewrite checkRateLimit_reject; [done|].
    fold (countOf ip today (runDay today events counts).2).
    unfold DAILY_LIMIT in *. lia.
  - destruct (checkRateLimit_cases ip today counts) as [[_ ->]|[_ ->]]; [done|].
    simpl. discriminate.
Qed.

(** The first 60 requests of a fresh caller pass, the 61st is rejected and
    the count stays at 60. *)
Lemma quota_never_exceeded_witness :
  let ip := lit "203.0.113.7" in
  let today := lit "Mon Nov 02 2026" in
  let day := runDay today (replicate 60 (Attempt ip)) ∅ in
  passes ip day.1 = 60
  ∧ (checkRateLimit ip today day.2).1 = Reject429
  ∧ (checkRateLimit ip today day.2).2 = day.2.
Proof.
  intros ip today day.
  pose proof (quota_never_exceeded ip today (replicate 60 (Attempt ip)) ∅)
    as (_ & Hrej & _).
  pose proof (quota_never_exceeded ip today [] day.2) as (_ & _ & Hsame).
  split; [by vm_compute|]. split.
  - apply Hrej. by vm_compute.
  - apply Hsame. apply Hrej. by vm_compute.
Defined.

(** ** The sweep and the shape of the keys *)

Section SweepKeys.

Implicit Types (ip day today : jsstring) (counts : gmap jsstring nat).

Lemma noSpace_spec ip : noSpace ip = true → 32%N ∉ ip.
Proof.
  unfold noSpace. rewrite forallb_forall. intros H Hin.
  apply list_elem_of_In, H in Hin. by rewrite N.eqb_refl in Hin.
Qed.

Lemma is_letter_spec c :
  is_letter c = true → (65 ≤ c ≤ 90 ∨ 97 ≤ c ≤ 122)%N.
Proof.
  unfold is_letter. rewrite orb_true_iff, !andb_true_iff, !N.leb_le. lia.
Qed.

Lemma is_digit_spec c : is_digit c = true ↔ (48 ≤ c ≤ 57)%N.
Proof. unfold is_digit. rewrite andb_true_iff, !N.leb_le. lia. Qed.

(** What the proofs need of a date string: its length, a space, no hyphen. *)
Lemma isDateString_shape d :
  isDateString d = true → length d = 15 ∧ 32%N ∈ d ∧ 45%N ∉ d.
Proof.
  intros H.
  do 15 (destruct d as [|? d]; [discriminate|]).
  destruct d; [|discriminate].
  cbn [isDateString] in H. rewrite !andb_true_iff in H.
  repeat match goal with H : _ ∧ _ |- _ => destruct H end.
  repeat match goal with
         | H : is_letter _ = true |- _ => apply is_letter_spec in H
         | H : is_digit _ = true |- _ => apply is_digit_spec in H
         | H : (_ =? _)%N = true |- _ => apply N.eqb_eq in H; subst
         end.
  split; [done|]. split.
  - do 3 right. left.
  - rewrite !not_elem_of_cons. repeat split; try lia. apply not_elem_of_nil.
Qed.

(** A key of another day contains [today] only if that text sits in the
    caller part: with no space in the caller and no hyphen in a day, it
    cannot. *)
Lemma stale_key_excludes_today ip day today :
  32%N ∉ ip → 32%N ∈ today → 45%N ∉ today → length day = length today →
  includes (quotaKey ip day) today = true → day = today.
Proof.
  intros Hip Hsp Hhy Hlen (pre & suf & Heq)%includes_true.
  unfold quotaKey in Heq. change (lit "-") with [45%N] in Heq.
  apply app_eq_app in Heq as [l [[-> Heq]|[-> Heq]]].
  - symmetry in Heq. apply app_eq_app in Heq as [l' [[-> Heq]|[-> Heq]]].
    + exfalso. apply Hip. rewrite !elem_of_app. auto.
    + destruct l' as [|c l'].
      * rewrite app_nil_r in Hsp. exfalso. apply Hip. rewrite elem_of_app. auto.
      * injection Heq as <- _. exfalso. apply Hhy. rewrite elem_of_app.
        right. left.
  - destruct l as [|c l]; simpl in Heq.
    + destruct today as [|t today]; [by apply elem_of_nil in Hsp|].
      injection Heq as <- _. exfalso. apply Hhy. left.
    + injection Heq as _ ->. rewrite !length_app in Hlen.
      destruct l; [|simpl in Hlen; lia].
      destruct suf; [|simpl in Hlen; lia].
      simpl. by rewrite app_nil_r.
Qed.

Lemma stale_key_removed ip day today counts :
  noSpace ip = true → isDateString day = true → isDateString today = true →
  day ≠ today →
  sweep today counts !! quotaKey ip day = None.
Proof.
  intros Hip (Hd & _ & _)%isDateString_shape (Ht & Hsp & Hhy)%isDateString_shape Hne.
  rewrite sweep_lookup.
  destruct (includes (quotaKey ip day) today) eqn:Hinc; [|done].
  exfalso. apply Hne.
  eapply stale_key_excludes_today; eauto using noSpace_spec. congruence.
Qed.

End SweepKeys.

(** The condition on the caller cannot be left out: the sweep tests the
    whole key for the day's text, not the part after the hyphen, so a caller
    part that itself held the text of the current day would keep the entry of
    the day before.  The text of an address holds no space and cannot. *)
Example sweep_tests_whole_key :
  let today := lit "Mon Nov 02 2026" in
  let day := lit "Sun Nov 01 2026" in
  let ip := lit "Mon Nov 02 2026" in
  noSpace ip = false
  ∧ sweep today {[ quotaKey ip day := 1 ]} !! quotaKey ip day = Some 1.
Proof. vm_compute. split; done. Qed.

(** C8.  Whatever the counters hold, a sweep run decides on each key the
    tracker builds by its day: for a caller whose text has no space in it
    (the text of an address) and days that are date strings, the key of the
    current day keeps its count and the key of any other day is removed. *)
Theorem sweep_removes_keys_without_today (today : jsstring)
    (counts : gmap jsstring nat) (ip day : jsstring) :
  noSpace ip = true → isDateString day = true → isDateString today = true →
  sweep today counts !! quotaKey ip day
  = if decide (day = today) then counts !! quotaKey ip day else None.
Proof.
  intros Hip Hday Htoday. destruct (decide (day = today)) as [->|Hne].
  - apply sweep_quotaKey.
  - by apply stale_key_removed.
Qed.

(** A sweep on Monday removes Sunday's entry of a caller and keeps Monday's. *)
Lemma sweep_removes_keys_without_today_witness :
  let today := lit "Mon Nov 02 2026" in
  let day := lit "Sun Nov 01 2026" in
  let ip := lit "203.0.113.7" in
  let counts : gmap jsstring nat := {[ quotaKey ip day := 60; quotaKey ip today := 3 ]} in
  sweep today counts !! quotaKey ip day = None
  ∧ sweep today counts !! quotaKey ip today = Some 3.
Proof.
  intros today day ip counts. split.
  - by rewrite (sweep_removes_keys_without_today today counts ip day)
      by (by vm_compute).
  - rewrite (sweep_removes_keys_without_today today counts ip today)
      by (by vm_compute).
    by vm_compute.
Defined.

(** ** Comparisons of floats *)

Section FloatOrder.

Lemma SFcompare_antisym x y :
  SFcompare y x = option_map CompOpp (SFcompare x y).
Proof.
  destruct x as [sx|sx| |sx mx ex], y as [sy|sy| |sy my ey]; simpl;
    try reflexivity; try (by destruct sx); try (by destruct sy);
    try (by destruct sx, sy).
  rewrite (Z.compare_antisym ex ey).
  pose proof (Pos.compare_cont_antisym mx my Eq) as Hm. simpl in Hm.
  destruct sx, sy; simpl; try reflexivity;
    destruct (ex ?= ey)%Z; simpl; try reflexivity;
    by rewrite <- Hm.
Qed.

Lemma Prim2SF_not_nan x : is_nan x = false → Prim2SF x ≠ S754_nan.
Proof.
  intros H. unfold Prim2SF. rewrite H.
  destruct (is_zero x); [discriminate|].
  destruct (is_infinity x); [discriminate|].
  destruct (Z.frexp x) as [r e].
  destruct (shr_fexp _ _ _ _ _) as [shr e'].
  by destruct (shr_m shr).
Qed.

Lemma SFcompare_None x y :
  SFcompare x y = None → x = S754_nan ∨ y = S754_nan.
Proof. destruct x, y; simpl; (discriminate || auto). Qed.

(** Between numbers, [x <= y] is the negation of [y < x]. *)
Lemma leb_negb_ltb (x y : float) :
  is_nan x = false → is_nan y = false →
  (x <=? y)%float = negb (y <? x)%float.
Proof.
  intros Hx%Prim2SF_not_nan Hy%Prim2SF_not_nan.
  rewrite leb_spec, ltb_spec. unfold SFleb, SFltb.
  rewrite (SFcompare_antisym (Prim2SF x) (Prim2SF y)).
  destruct (SFcompare (Prim2SF x) (Prim2SF y)) as [[]|] eqn:Hc; simpl; try done.
  by apply SFcompare_None in Hc as [?|?].
Qed.

End FloatOrder.

(** ** WeatherAdvisor *)

(** Case analysis on the tests of a chain of conditionals, outermost first. *)
Ltac case_tests :=
  repeat match goal with
         | |- context [if ?b then _ else _] =>
             lazymatch b with
             | context [if _ then _ else _] => fail
             | _ => destruct b eqn:?
             end
         end.

Section WeatherAdvisor.

Lemma startsWith_toLowerCase word s :
  Forall (λ a, lowerUnit a = a) word →
  startsWith word (toLowerCase s) = startsWithAnyCase word s.
Proof.
  intros Hw. revert s. induction Hw as [|a word Ha Hw IH]; intros s.
  - done.
  - destruct s as [|c s]; [done|]. simpl. rewrite IH.
    unfold sameLetter. by rewrite Ha.
Qed.

(** Searching the lower-cased text for a lower-case word is searching the
    text without regard to case. *)
Lemma includes_toLowerCase word s :
  Forall (λ a, lowerUnit a = a) word →
  includes (toLowerCase s) word = containsAnyCase s word.
Proof.
  intros Hw. induction s as [|c s IH].
  - simpl. by rewrite <- (startsWith_toLowerCase word []).
  - cbn [containsAnyCase]. rewrite <- IH, <- startsWith_toLowerCase by done.
    reflexivity.
Qed.

Lemma lower_rain : Forall (λ a, lowerUnit a = a) (lit "rain").
Proof. by repeat constructor. Qed.

Lemma lower_storm : Forall (λ a, lowerUnit a = a) (lit "storm").
Proof. by repeat constructor. Qed.

Lemma lower_snow : Forall (λ a, lowerUnit a = a) (lit "snow").
Proof. by repeat constructor. Qed.

(** The lower-cased conditions the function works on, when they are a
    string or missing. *)
Lemma lowerConditions_text c :
  c ≠ Other →
  lowerConditions c =
  Normal (toLowerCase (match c with Text s => s | _ => [] end)).
Proof. by destruct c. Qed.

Lemma advise_returns w :
  conditions w ≠ Other → ∃ a, getWeatherRecommendations w = Normal a.
Proof.
  intros Hc. unfold getWeatherRecommendations.
  rewrite (lowerConditions_text _ Hc).
  case_tests; eauto.
Qed.

Lemma advise_conditionsText w :
  conditions w ≠ Other →
  getWeatherRecommendations w =
  getWeatherRecommendations
    {| temp := temp w; conditions := Text (conditionsText w);
       windspeed := windspeed w; uvindex := uvindex w |}.
Proof. destruct w as [t [| |s|] ws uv]; intros Hc; done. Qed.

End WeatherAdvisor.

(** C2, as stated, fails on a reading without uvindex.  Clear sky, 75
    degrees, little wind: the code finds the uvindex not above 8 and gives
    perfect-outdoor, where rule 5 of the specification asks for
    [uvindex <= 8], fails, and leaves the reading to rule 6. *)
Lemma advise_without_uvindex_is_perfect :
  let w := {| temp := 75; conditions := Text (lit "clear");
              windspeed := 5; uvindex := nan |} in
  getWeatherRecommendations w
  = Normal {| recommendation := lit "perfect-outdoor";
              message := lit "Perfect for outdoor activities";
              reason := lit "Ideal conditions"; color := lit "#4CAF50" |}
  ∧ spec_advise w = (lit "good-outdoor", lit "Good conditions")
  ∧ ¬ ∃ a, getWeatherRecommendations w = Normal a
           ∧ (recommendation a, reason a) = spec_advise w.
Proof.
  intros w. split; [by vm_compute|]. split; [by vm_compute|].
  intros (a & Ha & Hspec). vm_compute in Ha. injection Ha as <-.
  vm_compute in Hspec. discriminate.
Qed.

(** C2, amended.  On a reading whose conditions are a string or missing, the
    advice has the recommendation and the reason of the first rule that
    applies, the rules tried in their order with their thresholds:
    bad-weather word, windspeed > 25, temp > 95, temp < 25, temp in [70,85]
    with a uvindex not above 8, temp in [60,90] (the reason by uvindex > 8),
    and moderate-outdoor otherwise.  Where the uvindex is a number this is
    the table of the specification, with [uvindex <= 8] in rule 5.  On
    conditions of another kind the function throws and no rule is tried. *)
Theorem advise_first_matching_rule (w : weatherData) :
  (conditions w = Other → ∃ e, getWeatherRecommendations w = Throw e)
  ∧ (conditions w ≠ Other →
       ∃ a, getWeatherRecommendations w = Normal a
            ∧ (recommendation a, reason a) = spec_advise_amended w)
  ∧ (is_nan (uvindex w) = false → spec_advise_amended w = spec_advise w).
Proof.
  split; [|split].
  - intros Hc. unfold getWeatherRecommendations. rewrite Hc. by eexists.
  - intros Hc. unfold getWeatherRecommendations.
    rewrite (lowerConditions_text _ Hc).
    fold (conditionsText w).
    rewrite (includes_toLowerCase _ _ lower_rain),
      (includes_toLowerCase _ _ lower_storm),
      (includes_toLowerCase _ _ lower_snow).
    unfold spec_advise_amended, spec_rules_amended, firstMatch.
    cbn [applies gives].
    case_tests; cbn [andb negb] in *; try discriminate; eexists; split; reflexivity.
  - intros Hu.
    unfold spec_advise_amended, spec_advise, spec_rules_amended, spec_rules,
      firstMatch.
    cbn [applies gives].
    by rewrite (leb_negb_ltb (uvindex w) 8 Hu eq_refl).
Qed.

(** Clear sky, 75 degrees, little wind.  With uvindex 9 rule 5 fails on the
    uvindex and rule 6 gives good-outdoor with the sun-protection reason, as
    the specification has it; without uvindex rule 5 applies. *)
Lemma advise_first_matching_rule_witness :
  let w := {| temp := 75; conditions := Text (lit "clear");
              windspeed := 5; uvindex := 9 |} in
  let w' := {| temp := 75; conditions := Text (lit "clear");
               windspeed := 5; uvindex := nan |} in
  (spec_advise w = (lit "good-outdoor", lit "Good weather - use sun protection")
   ∧ ∃ a, getWeatherRecommendations w = Normal a
          ∧ (recommendation a, reason a) = spec_advise w)
  ∧ ∃ a', getWeatherRecommendations w' = Normal a'
          ∧ (recommendation a', reason a')
            = (lit "perfect-outdoor", lit "Ideal conditions").
Proof.
  intros w w'. split; [split; [by vm_compute|]|].
  - destruct (advise_first_matching_rule w) as (_ & Hrule & Hspec).
    destruct Hrule as (a & Ha & Hrec); [by vm_compute|].
    exists a. split; [done|]. rewrite Hrec. apply Hspec. by vm_compute.
  - destruct (advise_first_matching_rule w') as (_ & Hrule & _).
    destruct Hrule as (a & Ha & Hrec); [by vm_compute|].
    exists a. split; [done|]. rewrite Hrec. by vm_compute.
Defined.

(** The readings the specification lists, run through the code. *)
Example advise_rain_showers :
  getWeatherRecommendations
    {| temp := 70; conditions := Text (lit "Rain showers");
       windspeed := 5; uvindex := 2 |}
  = Normal {| recommendation := lit "stay-indoors"; message := lit "Stay indoors";
              reason := lit "Poor weather conditions"; color := lit "#F57C00" |}.
Proof. by vm_compute. Qed.

Example advise_clear_uv3 :
  getWeatherRecommendations
    {| temp := 75; conditions := Text (lit "clear"); windspeed := 5; uvindex := 3 |}
  = Normal {| recommendation := lit "perfect-outdoor";
              message := lit "Perfect for outdoor activities";
              reason := lit "Ideal conditions"; color := lit "#4CAF50" |}.
Proof. by vm_compute. Qed.

Example advise_clear_uv9 :
  getWeatherRecommendations
    {| temp := 75; conditions := Text (lit "clear"); windspeed := 5; uvindex := 9 |}
  = Normal {| recommendation := lit "good-outdoor";
              message := lit "Great for outdoor activities";
              reason := lit "Good weather - use sun protection";
              color := lit "#4CAF50" |}.
Proof. by vm_compute. Qed.

(** The thresholds are where the rules put them: 85 is still perfect, 90
    still good, 95 and 25 are not yet extreme, a wind of 25 is not yet very
    windy. *)
Example advise_boundaries :
  let recommend t ws uv :=
    match getWeatherRecommendations
            {| temp := t; conditions := Absent; windspeed := ws; uvindex := uv |} with
    | Normal a => recommendation a
    | Throw _ => []
    end in
  (recommend 85 25 8)%float = lit "perfect-outdoor"
  ∧ (recommend 90 0 8)%float = lit "good-outdoor"
  ∧ (recommend 95 0 0)%float = lit "moderate-outdoor"
  ∧ (recommend 25 0 0)%float = lit "moderate-outdoor"
  ∧ (recommend 96 0 0)%float = lit "limited-outdoor"
  ∧ (recommend 24 0 0)%float = lit "limited-outdoor"
  ∧ (recommend 75 26 0)%float = lit "stay-indoors".
Proof. by vm_compute. Qed.

(** C9, as stated, fails.  A reading whose conditions are not a string,
    a number for one, gets no advice: [toLowerCase] is not a function of
    it, the call throws, and the route answers 500. *)
Lemma advise_throws_on_other_conditions :
  let w := {| temp := 75; conditions := Other; windspeed := 5; uvindex := 3 |} in
  (¬ ∃ a, getWeatherRecommendations w = Normal a)
  ∧ weatherRecommendations (Some w)
    = WeatherFailed (lit "conditions?.toLowerCase is not a function").
Proof.
  intros w. split; [|by vm_compute].
  intros [a Ha]. vm_compute in Ha. discriminate.
Qed.

(** C9, amended.  The function returns an advice exactly on the readings
    whose conditions are a string, [null] or missing, whatever their numbers
    and with or without them, and throws exactly on the others; missing and
    [null] conditions give what the empty string gives. *)
Theorem advise_total (t ws uv : float) (c : conditionsValue) :
  let reading c :=
    {| temp := t; conditions := c; windspeed := ws; uvindex := uv |} in
  ((∃ a, getWeatherRecommendations (reading c) = Normal a) ↔ c ≠ Other)
  ∧ ((∃ e, getWeatherRecommendations (reading c) = Throw e) ↔ c = Other)
  ∧ getWeatherRecommendations (reading Absent)
    = getWeatherRecommendations (reading (Text []))
  ∧ getWeatherRecommendations (reading Null)
    = getWeatherRecommendations (reading (Text [])).
Proof.
  intros reading.
  assert (c ≠ Other → ∃ a, getWeatherRecommendations (reading c) = Normal a)
    as Hreturns by (intros Hc; by apply advise_returns).
  assert (c = Other → ∃ e, getWeatherRecommendations (reading c) = Throw e)
    as Hthrows by (intros ->; by eexists).
  split; [|split; [|done]].
  - split; [|done]. intros [a Ha] Hc.
    destruct (Hthrows Hc) as [e He]. congruence.
  - split; [|done]. intros [e He].
    destruct c; try done; destruct Hreturns as [a Ha]; congruence.
Qed.

(** A reading with no conditions and no usable numbers still gets its
    advice, the same as with empty conditions. *)
Lemma advise_total_witness :
  let reading c :=
    {| temp := nan; conditions := c; windspeed := nan; uvindex := nan |} in
  (∃ a, getWeatherRecommendations (reading Absent) = Normal a)
  ∧ getWeatherRecommendations (reading Absent)
    = getWeatherRecommendations (reading (Text [])).
Proof.
  intros reading.
  destruct (advise_total nan nan nan Absent) as (Hreturns & _ & Habsent & _).
  split; [by apply Hreturns | exact Habsent].
Defined.

(** ** TemperatureConverter *)

Section TemperatureConverter.



(** A float that is not finite with a negative exponent (NaN, an infinity, a
    zero, an integer of 53 bits or more) is returned as it is. *)
Lemma Math_round_fixed x :
  (∀ s m e, Prim2SF x = S754_finite s m e → (0 ≤ e)%Z) → Math_round x = x.
Proof.
  intros H. unfold Math_round.
  destruct (Prim2SF x) as [| | |s m e] eqn:Hx; try done.
  specialize (H s m e eq_refl). by rewrite (proj2 (Z.leb_le 0 e) H).
Qed.

(** [f98_6] is the float the decimal 98.6 rounds to. *)
Example f98_6_nearest : f98_6 = (986 / 10)%float.
Proof. by vm_compute. Qed.

Example Math_round_ties :
  Math_round 2.5 = 3%float ∧ Math_round (-2.5) = (-2)%float
  ∧ Math_round 0.5 = 1%float ∧ Math_round (-0.5) = neg_zero
  ∧ Math_round 0x1.fffffffffffffp-2 = 0%float
  ∧ Math_round 0x1p+60 = 0x1p+60%float
  ∧ Math_round infinity = infinity ∧ Math_round nan = nan.
Proof. by vm_compute. Qed.

Example Number_toString_examples :
  Number_toString 37 = Some (lit "37")
  ∧ Number_toString (-40) = Some (lit "-40")
  ∧ Number_toString neg_zero = Some (lit "0")
  ∧ Number_toString nan = Some (lit "NaN")
  ∧ Number_toString 0x1p+53 = Some (lit "9007199254740992")
  ∧ Number_toString 0.5 = None.
Proof. by vm_compute. Qed.




End TemperatureConverter.



(** ** ResponseParser *)

Section ResponseParser.

Implicit Types (line rest tip : jsstring) (tips : list jsstring).

(** *** The markers, read off the two regular expressions *)

Lemma trimStart_spec s :
  ∃ ws, Forall (λ c, is_space c = true) ws ∧ s = ws ++ trimStart s
        ∧ noLeadingSpace (trimStart s).
Proof.
  induction s as [|c s (ws & Hws & Hs & Hrest)]; simpl.
  - by exists [].
  - destruct (is_space c) eqn:Hc.
    + exists (c :: ws). split; [by constructor|]. split; [|done].
      simpl. by rewrite <- Hs.
    + exists []. split; [constructor|]. split; [done|]. exact Hc.
Qed.

Lemma trimStart_app ws rest :
  Forall (λ c, is_space c = true) ws → noLeadingSpace rest →
  trimStart (ws ++ rest) = rest.
Proof.
  intros Hws Hrest. induction Hws as [|c ws Hc _ IH]; simpl.
  - destruct rest as [|c rest]; [done|]. simpl in *. by rewrite Hrest.
  - by rewrite Hc.
Qed.

(** [\s+]: one white-space unit or more, as many as there are. *)
Lemma afterSpaces_Some s rest :
  afterSpaces s = Some rest ↔
  ∃ ws, ws ≠ [] ∧ Forall (λ c, is_space c = true) ws ∧ s = ws ++ rest
        ∧ noLeadingSpace rest.
Proof.
  split.
  - destruct s as [|c s]; simpl; [done|].
    destruct (is_space c) eqn:Hc; [|done]. intros [= <-].
    destruct (trimStart_spec s) as (ws & Hws & Hs & Hrest).
    exists (c :: ws). split; [done|]. split; [by constructor|].
    split; [|done]. simpl. by rewrite <- Hs.
  - intros (ws & Hne & Hws & -> & Hrest).
    destruct Hws as [|c ws Hc Hws]; [done|]. simpl. rewrite Hc.
    by rewrite trimStart_app.
Qed.

(** [/^[-•*]\s+/]: a bullet, then white space. *)
Lemma afterBullet_Some line rest :
  afterBullet line = Some rest ↔
  ∃ c ws, is_bullet c = true ∧ ws ≠ [] ∧ Forall (λ c, is_space c = true) ws
          ∧ line = c :: ws ++ rest ∧ noLeadingSpace rest.
Proof.
  split.
  - destruct line as [|c s]; simpl; [done|].
    destruct (is_bullet c) eqn:Hc; [|done].
    intros (ws & Hne & Hws & -> & Hrest)%afterSpaces_Some.
    by exists c, ws.
  - intros (c & ws & Hc & Hne & Hws & -> & Hrest). simpl. rewrite Hc.
    apply afterSpaces_Some. by exists ws.
Qed.

Lemma dropDigits_spec s :
  ∃ ds, Forall (λ c, is_digit c = true) ds ∧ s = ds ++ dropDigits s
        ∧ match dropDigits s with c :: _ => is_digit c = false | [] => True end.
Proof.
  induction s as [|c s (ds & Hds & Hs & Hrest)]; simpl.
  - by exists [].
  - destruct (is_digit c) eqn:Hc.
    + exists (c :: ds). split; [by constructor|]. split; [|done].
      simpl. by rewrite <- Hs.
    + exists []. split; [constructor|]. split; [done|]. exact Hc.
Qed.

Lemma dropDigits_app ds rest :
  Forall (λ c, is_digit c = true) ds →
  match rest with c :: _ => is_digit c = false | [] => True end →
  dropDigits (ds ++ rest) = rest.
Proof.
  intros Hds Hrest. induction Hds as [|c ds Hc _ IH]; simpl.
  - destruct rest as [|c rest]; [done|]. simpl. by rewrite Hrest.
  - by rewrite Hc.
Qed.

(** [/^\d+\.\s+/]: digits, a full stop, then white space. *)
Lemma afterNumber_Some line rest :
  afterNumber line = Some rest ↔
  ∃ ds ws, ds ≠ [] ∧ Forall (λ c, is_digit c = true) ds
           ∧ ws ≠ [] ∧ Forall (λ c, is_space c = true) ws
           ∧ line = ds ++ [46%N] ++ ws ++ rest ∧ noLeadingSpace rest.
Proof.
  split.
  - destruct line as [|c s]; simpl; [done|].
    destruct (is_digit c) eqn:Hc; [|done].
    destruct (dropDigits_spec s) as (ds & Hds & Hs & _).
    destruct (dropDigits s) as [|d s'] eqn:Hd; [done|].
    destruct (d =? 46)%N eqn:Hdot; [|done]. apply N.eqb_eq in Hdot as ->.
    intros (ws & Hne & Hws & -> & Hrest)%afterSpaces_Some.
    exists (c :: ds), ws. split; [done|]. split; [by constructor|].
    split; [done|]. split; [done|]. split; [|done].
    simpl. by rewrite Hs.
  - intros (ds & ws & Hne & Hds & Hnw & Hws & -> & Hrest).
    destruct Hds as [|c ds Hc Hds]; [done|]. simpl. rewrite Hc.
    rewrite dropDigits_app by done. simpl.
    apply afterSpaces_Some. by exists ws.
Qed.

(** A line starts with a bullet or with a digit, never with both. *)
Lemma afterBullet_afterNumber line rest :
  afterBullet line = Some rest → afterNumber line = None.
Proof.
  destruct line as [|c s]; simpl; [done|].
  unfold is_bullet, is_digit, BULLET.
  destruct (c =? 45)%N eqn:H1; [apply N.eqb_eq in H1 as ->; done|].
  destruct (c =? 8226)%N eqn:H2; [apply N.eqb_eq in H2 as ->; done|].
  destruct (c =? 42)%N eqn:H3; [apply N.eqb_eq in H3 as ->; done|].
  done.
Qed.

(** *** The loop, line by line *)

Lemma omap_ext_in {A B} (f g : A → option B) (l : list A) :
  (∀ x, x ∈ l → f x = g x) → omap f l = omap g l.
Proof.
  induction l as [|x l IH]; intros Hfg; [done|]. csimpl.
  rewrite (Hfg x) by left. rewrite IH; [done|].
  intros y Hy. apply Hfg. by right.
Qed.

Lemma parseLine_tipOfLine tips line :
  parseLine tips line = tips ++ option_list (tipOfLine line).
Proof.
  unfold parseLine, tipOfLine, keepLong. cbv zeta.
  destruct (_ || _); [|by rewrite app_nil_r].
  destruct (decide _); [done | by rewrite app_nil_r].
Qed.

Lemma foldl_parseLine tips lines :
  foldl parseLine tips lines = tips ++ omap tipOfLine lines.
Proof.
  revert tips. induction lines as [|line lines IH]; intros tips; simpl.
  - by rewrite app_nil_r.
  - rewrite IH, parseLine_tipOfLine, <- app_assoc. f_equal.
    by destruct (tipOfLine line).
Qed.

Lemma parseResponse_omap rawResponse :
  parseResponse rawResponse = take 10 (omap tipOfLine (splitLines rawResponse)).
Proof. unfold parseResponse. by rewrite foldl_parseLine. Qed.

(** What a line gives, by the marker it starts with. *)
Lemma tipOfLine_bullet line rest :
  afterBullet (trim line) = Some rest →
  tipOfLine line = keepLong (replaceNumber rest).
Proof.
  intros H. unfold tipOfLine, replaceBullet. cbv zeta. by rewrite H.
Qed.

Lemma tipOfLine_number line rest :
  afterNumber (trim line) = Some rest →
  tipOfLine line = keepLong rest.
Proof.
  intros H. unfold tipOfLine, replaceBullet, replaceNumber. cbv zeta.
  destruct (afterBullet (trim line)) as [rest'|] eqn:Hb.
  { apply afterBullet_afterNumber in Hb. congruence. }
  cbn [default]. by rewrite H.
Qed.

Lemma tipOfLine_none line :
  afterBullet (trim line) = None → afterNumber (trim line) = None →
  tipOfLine line = None.
Proof.
  intros Hb Hn. unfold tipOfLine. cbv zeta. by rewrite Hb, Hn.
Qed.

(** On a line whose bullet is not followed by a numbered marker, the loop
    strips the one marker the line has. *)
Lemma tipOfLine_spec line :
  (∀ rest, afterBullet (trim line) = Some rest → afterNumber rest = None) →
  tipOfLine line = spec_tipOfLine line.
Proof.
  intros Hsingle. unfold spec_tipOfLine, spec_stripMarker.
  destruct (afterBullet (trim line)) as [rest|] eqn:Hb.
  - rewrite (tipOfLine_bullet _ _ Hb). unfold replaceNumber.
    by rewrite (Hsingle rest eq_refl).
  - destruct (afterNumber (trim line)) as [rest|] eqn:Hn.
    + by rewrite (tipOfLine_number _ _ Hn).
    + by apply tipOfLine_none.
Qed.

Lemma tipOfLine_long line tip : tipOfLine line = Some tip → 10 < length tip.
Proof.
  unfold tipOfLine, keepLong. cbv zeta. destruct (_ || _); [|done].
  destruct (decide _); [|done]. by intros [= <-].
Qed.

End ResponseParser.

(** C6, as stated, fails.  A bullet line whose text starts with a numbered
    marker loses both markers, not only the bullet that made it qualify. *)
Lemma parseResponse_strips_both_markers :
  let rawResponse := lit "- 1. Visit the old town" in
  spec_parse rawResponse = [lit "1. Visit the old town"]
  ∧ parseResponse rawResponse = [lit "Visit the old town"]
  ∧ parseResponse rawResponse ≠ spec_parse rawResponse.
Proof. by vm_compute. Qed.

(** C6, amended.  [parseResponse] returns, in line order, the first at most
    10 tips of the lines that qualify: a trimmed line that starts with a
    bullet and white space gives what follows, less a numbered marker if that
    text starts with one; a trimmed line that starts with digits, a full stop
    and white space gives what follows; a tip is kept when it is longer than
    10 code units.  (A bullet marker is one of '-', the bullet U+2022 and '*'
    with all the white space after it, at least one unit; a numbered marker is
    digits, a full stop and all the white space after it, at least one unit.)
    Where no bullet is followed by a numbered marker this is the parse of the
    specification.  No qualifying line gives the empty list, and the
    three-line vector gives its two tips. *)
Theorem parseResponse_tips (rawResponse : jsstring) :
  parseResponse rawResponse = take 10 (omap tipOfLine (splitLines rawResponse))
  ∧ (∀ line,
       tipOfLine line =
       match afterBullet (trim line), afterNumber (trim line) with
       | Some rest, _ => keepLong (replaceNumber rest)
       | None, Some rest => keepLong rest
       | None, None => None
       end)
  ∧ (∀ line rest,
       afterBullet line = Some rest ↔
       ∃ c ws, is_bullet c = true ∧ ws ≠ [] ∧ Forall (λ c, is_space c = true) ws
               ∧ line = c :: ws ++ rest ∧ noLeadingSpace rest)
  ∧ (∀ line rest,
       afterNumber line = Some rest ↔
       ∃ ds ws, ds ≠ [] ∧ Forall (λ c, is_digit c = true) ds
                ∧ ws ≠ [] ∧ Forall (λ c, is_space c = true) ws
                ∧ line = ds ++ [46%N] ++ ws ++ rest ∧ noLeadingSpace rest)
  ∧ length (parseResponse rawResponse) ≤ 10
  ∧ (∀ tip, tip ∈ parseResponse rawResponse → 10 < length tip)
  ∧ ((∀ line rest, line ∈ splitLines rawResponse →
        afterBullet (trim line) = Some rest → afterNumber rest = None) →
     parseResponse rawResponse = spec_parse rawResponse)
  ∧ ((∀ line, line ∈ splitLines rawResponse →
        afterBullet (trim line) = None ∧ afterNumber (trim line) = None) →
     parseResponse rawResponse = [])
  ∧ parseResponse threeLines = [lit "Visit the old town"; lit "See the cathedral"].
Proof.
  split; [apply parseResponse_omap|].
  split.
  { intros line.
    destruct (afterBullet (trim line)) as [rest|] eqn:Hb.
    - by apply tipOfLine_bullet.
    - destruct (afterNumber (trim line)) as [rest|] eqn:Hn.
      + by apply tipOfLine_number.
      + by apply tipOfLine_none. }
  split; [apply afterBullet_Some|].
  split; [apply afterNumber_Some|].
  split.
  { unfold parseResponse. rewrite length_take. lia. }
  split.
  { intros tip Hin. rewrite parseResponse_omap in Hin.
    apply subseteq_take, list_elem_of_omap in Hin as (line & _ & Hline).
    by eapply tipOfLine_long. }
  split.
  { intros Hsingle. rewrite parseResponse_omap. unfold spec_parse. f_equal.
    apply omap_ext_in. intros line Hin.
    apply tipOfLine_spec. intros rest. by apply Hsingle. }
  split.
  { intros Hnone. rewrite parseResponse_omap.
    assert (omap tipOfLine (splitLines rawResponse) = []) as ->; [|done].
    induction (splitLines rawResponse) as [|line lines IH]; [done|]. simpl.
    destruct (Hnone line) as [Hb Hn]; [left|].
    rewrite (tipOfLine_none _ Hb Hn). apply IH.
    intros line' Hin. apply Hnone. by right. }
  by vm_compute.
Qed.

(** The three-line vector has no bullet followed by a numbered marker, so
    its parse is the parse of the specification; and a text without markers
    gives no tip. *)
Lemma parseResponse_tips_witness :
  parseResponse threeLines = spec_parse threeLines
  ∧ parseResponse (lit "Nothing to report here, sorry.") = [].
Proof.
  destruct (parseResponse_tips threeLines)
    as (_ & _ & _ & _ & _ & _ & Hspec & _).
  destruct (parseResponse_tips (lit "Nothing to report here, sorry."))
    as (_ & _ & _ & _ & _ & _ & _ & Hnone & _).
  split.
  - apply Hspec. intros line rest Hin.
    vm_compute in Hin.
    repeat (apply elem_of_cons in Hin as [->|Hin]; [by vm_compute; intros [= <-]|]).
    by apply elem_of_nil in Hin.
  - apply Hnone. intros line Hin.
    vm_compute in Hin.
    repeat (apply elem_of_cons in Hin as [->|Hin]; [by vm_compute|]).
    by apply elem_of_nil in Hin.
Defined.

(** ** The route *)

Section Route.

Implicit Types (apiKey : option jsstring) (backend : jsstring → backendReply)
  (req : request) (w : world) (today raw : jsstring).

Lemma ensureEnough_few tips :
  length tips < 5 → ensureEnough tips = tips ++ fallbackTips.
Proof. intros H. unfold ensureEnough. by rewrite decide_True. Qed.

Lemma ensureEnough_many tips : 5 ≤ length tips → ensureEnough tips = tips.
Proof. intros H. unfold ensureEnough. rewrite decide_False; [done | lia]. Qed.

Lemma length_fallbackTips : length fallbackTips = 5.
Proof. reflexivity. Qed.

Lemma length_parseResponse raw : length (parseResponse raw) ≤ 10.
Proof. unfold parseResponse. rewrite length_take. lia. Qed.

Lemma length_ensureEnough raw :
  5 ≤ length (ensureEnough (parseResponse raw)) ≤ 10.
Proof.
  pose proof (length_parseResponse raw) as H10.
  destruct (decide (length (parseResponse raw) < 5)) as [Hlt|Hge].
  - rewrite ensureEnough_few, length_app, length_fallbackTips by done. lia.
  - rewrite ensureEnough_many by lia. lia.
Qed.

(** The call to the backend, case by case. *)
Lemma getRecommendations_unconfigured apiKey backend prompt sent :
  hasCredential apiKey = false →
  getRecommendations apiKey backend prompt sent =
  (Throw (lit "OpenAI API key not configured"), sent).
Proof. unfold getRecommendations. by intros ->. Qed.

Lemma getRecommendations_configured apiKey backend prompt sent :
  hasCredential apiKey = true →
  getRecommendations apiKey backend prompt sent =
  (match backend prompt with
   | Completion content => Normal content
   | ErrorStatus message => Throw (backendErrorMessage message)
   | TransportFailure message => Throw message
   end, sent ++ [prompt]).
Proof.
  unfold getRecommendations. intros ->. simpl.
  by destruct (backend prompt).
Qed.

(** The handler, case by case. *)
Lemma exploreHandler_no_destination apiKey backend req sent :
  hasDestination req = false →
  exploreHandler apiKey backend req sent = (DestinationRequired, sent).
Proof. unfold exploreHandler. by intros ->. Qed.

Lemma exploreHandler_unconfigured apiKey backend req sent :
  hasDestination req = true → hasCredential apiKey = false →
  exploreHandler apiKey backend req sent = (ServiceConfigurationError, sent).
Proof.
  unfold exploreHandler. intros -> Hkey. cbv zeta. cbn [negb].
  by rewrite getRecommendations_unconfigured.
Qed.

Lemma exploreHandler_completion apiKey backend req sent raw :
  hasDestination req = true → hasCredential apiKey = true →
  backend (promptOf req) = Completion raw →
  exploreHandler apiKey backend req sent =
  (Recommendations (ensureEnough (parseResponse raw)) raw, sent ++ [promptOf req]).
Proof.
  unfold exploreHandler. intros -> Hkey Hb. cbv zeta. cbn [negb].
  by rewrite getRecommendations_configured, Hb.
Qed.

Lemma exploreHandler_error apiKey backend req sent message :
  hasDestination req = true → hasCredential apiKey = true →
  backend (promptOf req) = ErrorStatus message →
  exploreHandler apiKey backend req sent =
  (handleError (backendErrorMessage message), sent ++ [promptOf req]).
Proof.
  unfold exploreHandler. intros -> Hkey Hb. cbv zeta. cbn [negb].
  by rewrite getRecommendations_configured, Hb.
Qed.

(** The route for a caller under the limit and for one at the limit. *)
Lemma exploreDestination_next apiKey backend today req w :
  countOf (ip req) today (requestCounts w) < DAILY_LIMIT →
  exploreDestination apiKey backend today req w =
  let counts := <[quotaKey (ip req) today :=
                    countOf (ip req) today (requestCounts w) + 1]> (requestCounts w) in
  let handled := exploreHandler apiKey backend req (sent w) in
  (handled.1, {| requestCounts := counts; sent := handled.2 |}).
Proof.
  intros Hlt. unfold exploreDestination.
  rewrite checkRateLimit_next by done. fold (countOf (ip req) today (requestCounts w)).
  by destruct (exploreHandler apiKey backend req (sent w)).
Qed.

Lemma exploreDestination_reject apiKey backend today req w :
  DAILY_LIMIT ≤ countOf (ip req) today (requestCounts w) →
  exploreDestination apiKey backend today req w = (TooManyRequests, w).
Proof.
  intros Hge. unfold exploreDestination.
  rewrite checkRateLimit_reject by done. by destruct w.
Qed.

(** A run that answers with recommendations got them from a completion of
    the backend, parsed and filled up. *)
Lemma exploreDestination_Recommendations apiKey backend today req w tips raw w' :
  exploreDestination apiKey backend today req w = (Recommendations tips raw, w') →
  tips = ensureEnough (parseResponse raw).
Proof.
  unfold exploreDestination.
  destruct (checkRateLimit _ _ _) as [[] counts]; [|discriminate].
  destruct (exploreHandler _ _ _ _) as [res sent'] eqn:Hh. intros [= -> <-].
  unfold exploreHandler in Hh.
  destruct (negb _); [discriminate|].
  destruct (getRecommendations _ _ _ _) as [[raw'|message] sent''].
  - by injection Hh as <- <- _.
  - injection Hh as Hh _. unfold handleError in Hh.
    by destruct (includes _ _).
Qed.

End Route.

(** C3.  When the backend's text parses to fewer than 5 tips, the answer of
    the route carries the parsed tips, in their order, followed by the five
    fallback tips in theirs; three parsed tips make eight. *)
Theorem fallback_tips_appended (apiKey : option jsstring)
    (backend : jsstring → backendReply) (today : jsstring) (req : request)
    (w : world) (raw : jsstring) :
  countOf (ip req) today (requestCounts w) < DAILY_LIMIT →
  hasDestination req = true → hasCredential apiKey = true →
  backend (promptOf req) = Completion raw →
  length (parseResponse raw) < 5 →
  (exploreDestination apiKey backend today req w).1
  = Recommendations (parseResponse raw ++ fallbackTips) raw
  ∧ length fallbackTips = 5
  ∧ (length (parseResponse raw) = 3 →
     length (parseResponse raw ++ fallbackTips) = 8).
Proof.
  intros Hq Hd Hk Hb Hfew.
  rewrite exploreDestination_next by done. cbv zeta. cbn [fst].
  rewrite (exploreHandler_completion _ _ _ _ raw) by done. cbn [fst].
  rewrite ensureEnough_few by done.
  split; [done|]. split; [done|].
  intros H3. by rewrite length_app, H3.
Qed.

(** Three tips from the backend: the answer has them and the five fallback
    tips after them. *)
Lemma fallback_tips_appended_witness :
  (exploreDestination (Some (lit "sk-test")) (λ _, Completion threeTips)
     sampleDay parisRequest freshWorld).1
  = Recommendations
      ([lit "Visit the old town"; lit "See the cathedral";
        lit "Walk along the river bank"] ++ fallbackTips) threeTips.
Proof.
  destruct (fallback_tips_appended (Some (lit "sk-test")) (λ _, Completion threeTips)
              sampleDay parisRequest freshWorld threeTips) as (H & _ & _);
    [vm_compute; lia | done | done | done | vm_compute; lia |].
  rewrite H. by vm_compute.
Defined.

(** C10.  The tips of an answer with recommendations are at least 5 and at
    most 10; and a request that is let through, has a destination and finds
    the backend configured and answering gets such an answer. *)
Theorem generalTips_between_5_and_10 (apiKey : option jsstring)
    (backend : jsstring → backendReply) (today : jsstring) (req : request)
    (w : world) :
  (∀ tips raw w',
     exploreDestination apiKey backend today req w = (Recommendations tips raw, w') →
     5 ≤ length tips ≤ 10)
  ∧ (∀ raw,
       countOf (ip req) today (requestCounts w) < DAILY_LIMIT →
       hasDestination req = true → hasCredential apiKey = true →
       backend (promptOf req) = Completion raw →
       ∃ tips,
         (exploreDestination apiKey backend today req w).1 = Recommendations tips raw
         ∧ 5 ≤ length tips ≤ 10).
Proof.
  split.
  - intros tips raw w' ->%exploreDestination_Recommendations.
    apply length_ensureEnough.
  - intros raw Hq Hd Hk Hb.
    exists (ensureEnough (parseResponse raw)). split; [|apply length_ensureEnough].
    rewrite exploreDestination_next by done. cbv zeta. cbn [fst].
    by rewrite (exploreHandler_completion _ _ _ _ raw).
Qed.

(** Twelve tips from the backend are cut to ten and not filled up; three are
    filled up to eight. *)
Lemma generalTips_between_5_and_10_witness :
  (∃ tips,
     (exploreDestination (Some (lit "sk-test")) (λ _, Completion twelveTips)
        sampleDay parisRequest freshWorld).1 = Recommendations tips twelveTips
     ∧ 5 ≤ length tips ≤ 10)
  ∧ length (ensureEnough (parseResponse twelveTips)) = 10
  ∧ length (ensureEnough (parseResponse threeTips)) = 8.
Proof.
  split; [|by vm_compute].
  apply (generalTips_between_5_and_10 (Some (lit "sk-test"))
           (λ _, Completion twelveTips) sampleDay parisRequest freshWorld);
    first [by vm_compute | vm_compute; lia].
Defined.

(** C4, as stated, fails.  A response of the backend that is not [ok] and
    whose error message mentions the API key is answered with the
    configuration error, the answer a missing credential gets. *)
Lemma backend_error_read_as_configuration :
  let backend := λ _ : jsstring, ErrorStatus (Some (lit "Incorrect API key provided")) in
  let configured :=
    exploreDestination (Some (lit "sk-test")) backend sampleDay parisRequest freshWorld in
  let unconfigured :=
    exploreDestination None backend sampleDay parisRequest freshWorld in
  configured.1 = ServiceConfigurationError
  ∧ sent configured.2 = [promptOf parisRequest]
  ∧ unconfigured.1 = ServiceConfigurationError
  ∧ sent unconfigured.2 = [].
Proof. by vm_compute. Qed.

(** C4, amended.  A missing credential is found before the backend is
    called: the log of calls is unchanged and the answer is the
    configuration error.  With the credential set, a response that is not
    [ok] comes after the call and is answered with the failure that carries
    its message ('OpenAI API error' when it has none), unless that message
    contains the text 'API key': then it is answered with the configuration
    error too. *)
Theorem credential_checked_before_call (apiKey : option jsstring)
    (backend : jsstring → backendReply) (today : jsstring) (req : request)
    (w : world) :
  countOf (ip req) today (requestCounts w) < DAILY_LIMIT →
  hasDestination req = true →
  let run := exploreDestination apiKey backend today req w in
  (hasCredential apiKey = false →
   run.1 = ServiceConfigurationError ∧ sent run.2 = sent w)
  ∧ (hasCredential apiKey = true → ∀ message,
       backend (promptOf req) = ErrorStatus message →
       sent run.2 = sent w ++ [promptOf req]
       ∧ run.1 =
         if includes (backendErrorMessage message) (lit "API key")
         then ServiceConfigurationError
         else FailedToGetRecommendations (backendErrorMessage message))
  ∧ (hasCredential apiKey = true →
     backend (promptOf req) = ErrorStatus None →
     run.1 = FailedToGetRecommendations (lit "OpenAI API error")).
Proof.
  intros Hq Hd run. subst run.
  rewrite exploreDestination_next by done. cbv zeta. cbn [fst snd sent].
  split; [|split].
  - intros Hk. by rewrite exploreHandler_unconfigured.
  - intros Hk message Hb. by rewrite (exploreHandler_error _ _ _ _ message).
  - intros Hk Hb. by rewrite (exploreHandler_error _ _ _ _ None).
Qed.

(** No credential: no call.  A credential and a rate-limit error from the
    backend: one call, and the failure with the backend's message. *)
Lemma credential_checked_before_call_witness :
  let backend := λ _ : jsstring, ErrorStatus (Some (lit "Rate limit reached")) in
  let unconfigured :=
    exploreDestination None backend sampleDay parisRequest freshWorld in
  let configured :=
    exploreDestination (Some (lit "sk-test")) backend sampleDay parisRequest freshWorld in
  (unconfigured.1 = ServiceConfigurationError ∧ sent unconfigured.2 = [])
  ∧ (sent configured.2 = [promptOf parisRequest]
     ∧ configured.1 = FailedToGetRecommendations (lit "Rate limit reached")).
Proof.
  intros backend unconfigured configured. subst unconfigured configured.
  destruct (credential_checked_before_call None backend sampleDay parisRequest
              freshWorld) as (Hnone & _ & _); [vm_compute; lia | done |].
  destruct (credential_checked_before_call (Some (lit "sk-test")) backend sampleDay
              parisRequest freshWorld) as (_ & Hsome & _); [vm_compute; lia | done |].
  split; [by apply Hnone|].
  destruct (Hsome eq_refl (Some (lit "Rate limit reached")) eq_refl) as [Hs Hr].
  split; [exact Hs | rewrite Hr; by vm_compute].
Defined.

(** C5, as stated, fails.  The quota check runs before the handler looks at
    the destination: a request without a destination is answered 400 and
    has been counted. *)
Lemma missing_destination_is_counted :
  let req := {| ip := sampleIp; destination := None;
                timeOfYear := None; preferences := None |} in
  let run := exploreDestination (Some (lit "sk-test")) (λ _, Completion threeTips)
               sampleDay req freshWorld in
  run.1 = DestinationRequired
  ∧ countOf sampleIp sampleDay (requestCounts freshWorld) = 0
  ∧ countOf sampleIp sampleDay (requestCounts run.2) = 1.
Proof. by vm_compute. Qed.

(** C5, amended.  A request without a destination never reaches the
    backend.  From a caller under the daily limit it is answered with
    'Destination is required', after the caller's count has gone up by one;
    from a caller at the limit it is answered with the quota rejection and
    the state is unchanged. *)
Theorem missing_destination_rejected (apiKey : option jsstring)
    (backend : jsstring → backendReply) (today : jsstring) (req : request)
    (w : world) :
  hasDestination req = false →
  let run := exploreDestination apiKey backend today req w in
  sent run.2 = sent w
  ∧ (countOf (ip req) today (requestCounts w) < DAILY_LIMIT →
     run.1 = DestinationRequired
     ∧ countOf (ip req) today (requestCounts run.2)
       = countOf (ip req) today (requestCounts w) + 1)
  ∧ (DAILY_LIMIT ≤ countOf (ip req) today (requestCounts w) →
     run = (TooManyRequests, w)).
Proof.
  intros Hd run. subst run.
  destruct (decide (countOf (ip req) today (requestCounts w) < DAILY_LIMIT))
    as [Hlt|Hge].
  - rewrite exploreDestination_next by done. cbv zeta.
    rewrite exploreHandler_no_destination by done. cbn [fst snd sent requestCounts].
    split; [done|]. split; [|lia].
    intros _. split; [done|]. apply countOf_insert_same.
  - rewrite exploreDestination_reject by lia.
    split; [done|]. split; [lia | done].
Qed.

(** An empty destination from a fresh caller, and from one at the limit. *)
Lemma missing_destination_rejected_witness :
  let req := {| ip := sampleIp; destination := Some [];
                timeOfYear := None; preferences := None |} in
  let spent := {| requestCounts := {[ quotaKey sampleIp sampleDay := 60 ]}; sent := [] |} in
  let backend := λ _ : jsstring, Completion threeTips in
  (exploreDestination None backend sampleDay req freshWorld).1 = DestinationRequired
  ∧ exploreDestination None backend sampleDay req spent = (TooManyRequests, spent).
Proof.
  intros req spent backend.
  destruct (missing_destination_rejected None backend sampleDay req freshWorld)
    as (_ & Hfresh & _); [done|].
  destruct (missing_destination_rejected None backend sampleDay req spent)
    as (_ & _ & Hspent); [done|].
  split.
  - apply Hfresh. vm_compute. lia.
  - apply Hspent. vm_compute. lia.
Defined.

(** * Further properties of the code *)

(** ** QuotaTracker: callers, days and the sweep *)

Section QuotaMore.

Implicit Types (ip day today key : jsstring) (counts : gmap jsstring nat).

(** The verdict and the new count of a caller depend on its count alone. *)
Lemma checkRateLimit_by_count ip today counts counts' :
  countOf ip today counts = countOf ip today counts' →
  (checkRateLimit ip today counts).1 = (checkRateLimit ip today counts').1
  ∧ countOf ip today (checkRateLimit ip today counts).2
    = countOf ip today (checkRateLimit ip today counts').2.
Proof.
  intros Heq.
  destruct (checkRateLimit_cases ip today counts) as [[Hn ->]|[Hn ->]];
    destruct (checkRateLimit_cases ip today counts') as [[Hn' ->]|[Hn' ->]];
    fold (countOf ip today counts) in *; fold (countOf ip today counts') in *;
    cbn [fst snd]; rewrite ?countOf_insert_same; try lia; auto with lia.
Qed.

Lemma checkRateLimit_other ip ip' today counts :
  ip' ≠ ip →
  countOf ip today (checkRateLimit ip' today counts).2 = countOf ip today counts.
Proof.
  intros Hne.
  destruct (checkRateLimit_cases ip' today counts) as [[_ ->]|[_ ->]]; [done|].
  cbn [snd]. by apply countOf_insert_other.
Qed.

(** The log of one caller, whatever the others do and whenever the sweep
    runs, for any start that gives the caller the same count. *)
Lemma runDay_own_log ip today events counts counts' :
  countOf ip today counts = countOf ip today counts' →
  filter (λ o, o.1 = ip) (runDay today events counts).1
  = (runDay today (filter (λ e, e = Attempt ip) events) counts').1.
Proof.
  revert counts counts'.
  induction events as [|[ip'|] events IH]; intros counts counts' Heq.
  - done.
  - rewrite runDay_attempt. cbv zeta. cbn [fst].
    rewrite !filter_cons. cbn [fst].
    destruct (decide (ip' = ip)) as [->|Hne].
    + rewrite decide_True by done.
      rewrite runDay_attempt. cbv zeta. cbn [fst].
      destruct (checkRateLimit_by_count ip today counts counts' Heq) as [-> Hc].
      f_equal. by apply IH.
    + rewrite decide_False by congruence.
      apply IH. by rewrite checkRateLimit_other.
  - rewrite filter_cons, decide_False by done. cbn [runDay].
    apply IH. by rewrite countOf_sweep.
Qed.

(** A key has one caller and one day, as long as days have no hyphen. *)
Lemma quotaKey_inj_parts ip ip' day day' :
  45%N ∉ day → 45%N ∉ day' →
  quotaKey ip day = quotaKey ip' day' → ip = ip' ∧ day = day'.
Proof.
  intros Hd Hd'. unfold quotaKey. change (lit "-") with [45%N]. simpl.
  intros [l [[-> Heq]|[-> Heq]]]%app_eq_app.
  - destruct l as [|c l]; simpl in Heq.
    + injection Heq as ->. by rewrite app_nil_r.
    + injection Heq as <- ->. exfalso. apply Hd'.
      rewrite elem_of_app. right. left.
  - destruct l as [|c l]; simpl in Heq.
    + injection Heq as ->. by rewrite app_nil_r.
    + injection Heq as <- ->. exfalso. apply Hd.
      rewrite elem_of_app. right. left.
Qed.

Lemma runTrace_entries before trace counts :
  map_Forall (entryOk before) counts →
  map_Forall (entryOk (before ++ trace)) (runTrace trace counts).
Proof.
  revert before counts. induction trace as [|t trace IH]; intros before counts Hall.
  - by rewrite app_nil_r.
  - replace (before ++ t :: trace) with ((before ++ [t]) ++ trace)
      by by rewrite <- app_assoc.
    apply IH. clear IH.
    assert (∀ key n, entryOk before key n → entryOk (before ++ [t]) key n) as Hmono.
    { intros key n (Hn & ip & today & Hin & ->). split; [done|].
      exists ip, today. split; [|done]. rewrite elem_of_app. by left. }
    destruct t as [ip today|today]; simpl.
    + destruct (checkRateLimit_cases ip today counts) as [[_ ->]|[Hn ->]]; cbn [snd].
      * intros key n Hk. apply Hmono. by apply Hall.
      * apply map_Forall_insert_2.
        -- split; [unfold DAILY_LIMIT in *; lia|].
           exists ip, today. split; [|done]. rewrite elem_of_app. right. left.
        -- intros key n Hk. apply Hmono. by apply Hall.
    + intros key n Hk. rewrite sweep_lookup in Hk.
      destruct (includes key today); [|done]. apply Hmono. by apply Hall.
Qed.

Lemma sweep_subseteq today counts : sweep today counts ⊆ counts.
Proof.
  apply map_subseteq_spec. intros key n. rewrite sweep_lookup.
  by destruct (includes key today).
Qed.

Lemma sweep_insert_today ip today counts n :
  sweep today (<[quotaKey ip today := n]> counts)
  = <[quotaKey ip today := n]> (sweep today counts).
Proof.
  apply map_eq. intros key. rewrite sweep_lookup.
  destruct (decide (key = quotaKey ip today)) as [->|Hne].
  - by rewrite includes_quotaKey, !lookup_insert_eq.
  - rewrite !lookup_insert_ne by done. by rewrite sweep_lookup.
Qed.

End QuotaMore.

(** X1.  Within a day a caller's verdicts are its own: the verdicts it gets
    among the requests of other callers and the runs of the sweep are the
    verdicts it would get if its requests were the only events of the day. *)
Theorem caller_verdicts_are_its_own (ip today : jsstring) (events : list event)
    (counts : gmap jsstring nat) :
  filter (λ o, o.1 = ip) (runDay today events counts).1
  = (runDay today (filter (λ e, e = Attempt ip) events) counts).1.
Proof. by apply runDay_own_log. Qed.

(** X2.  Two keys built on date strings are equal only for the same caller
    and the same day: no two callers, and no two days of a caller, share a
    counter. *)
Theorem key_names_one_caller_and_day (ip ip' day day' : jsstring) :
  isDateString day = true → isDateString day' = true →
  quotaKey ip day = quotaKey ip' day' → ip = ip' ∧ day = day'.
Proof.
  intros (_ & _ & Hd)%isDateString_shape (_ & _ & Hd')%isDateString_shape.
  by apply quotaKey_inj_parts.
Qed.

(** Two callers on one day, and one caller on two days, have three keys. *)
Lemma key_names_one_caller_and_day_witness :
  quotaKey (lit "10.0.0.1") sampleDay ≠ quotaKey (lit "10.0.0.2") sampleDay
  ∧ quotaKey sampleIp sampleDay ≠ quotaKey sampleIp (lit "Sun Nov 01 2026").
Proof.
  split; intros Hkey.
  - apply (key_names_one_caller_and_day (lit "10.0.0.1") (lit "10.0.0.2")
             sampleDay sampleDay) in Hkey as [Hip _]; [discriminate|done..].
  - apply (key_names_one_caller_and_day sampleIp sampleIp
             sampleDay (lit "Sun Nov 01 2026")) in Hkey as [_ Hday];
      [discriminate|done..].
Defined.

(** X3.  Whatever requests and sweep runs the tracker has seen since it
    started empty, every stored count is between 1 and 60, under a key that
    some request built. *)
Theorem stored_counts_within_limit (trace : list tick) :
  map_Forall
    (λ key n, 1 ≤ n ≤ 60
              ∧ ∃ ip today, RequestAt ip today ∈ trace ∧ key = quotaKey ip today)
    (runTrace trace ∅).
Proof.
  pose proof (runTrace_entries [] trace ∅) as H. simpl in H.
  apply H. apply map_Forall_empty.
Qed.

(** X4.  A new day starts a new count: after any trace from the empty
    tracker whose requests saw other date-string days, the first request of a
    caller on the day [today] finds no count and is let through with count
    1, though the caller may have spent its quota before. *)
Theorem new_day_new_count (trace : list tick) (ip today : jsstring) :
  isDateString today = true →
  (∀ ip' day, RequestAt ip' day ∈ trace → isDateString day = true ∧ day ≠ today) →
  checkRateLimit ip today (runTrace trace ∅)
  = (Next, <[quotaKey ip today := 1]> (runTrace trace ∅)).
Proof.
  intros Ht Hdays.
  assert (runTrace trace ∅ !! quotaKey ip today = None) as Hnone.
  { destruct (runTrace trace ∅ !! quotaKey ip today) as [n|] eqn:Hk; [|done].
    pose proof (runTrace_entries [] trace ∅ (map_Forall_empty _)) as Hall.
    apply Hall in Hk as (_ & ip' & day & Hin & Hkey).
    destruct (Hdays ip' day Hin) as [Hd Hne].
    apply isDateString_shape in Ht as (_ & _ & Ht).
    apply isDateString_shape in Hd as (_ & _ & Hd).
    apply quotaKey_inj_parts in Hkey as [_ ->]; done. }
  rewrite checkRateLimit_next; rewrite Hnone; [done | unfold DAILY_LIMIT; simpl; lia].
Qed.

(** Sixty-one requests on Sunday, a sweep on Monday, then the first request
    of Monday. *)
Lemma new_day_new_count_witness :
  let sunday := lit "Sun Nov 01 2026" in
  let trace := replicate 61 (RequestAt sampleIp sunday) ++ [SweepAt sampleDay] in
  (checkRateLimit sampleIp sunday (runTrace (replicate 61 (RequestAt sampleIp sunday)) ∅)).1
  = Reject429
  ∧ checkRateLimit sampleIp sampleDay (runTrace trace ∅)
    = (Next, <[quotaKey sampleIp sampleDay := 1]> (runTrace trace ∅)).
Proof.
  intros sunday trace. split; [by vm_compute|].
  apply (new_day_new_count trace sampleIp sampleDay); [by vm_compute|].
  intros ip' day Hin. subst trace.
  apply elem_of_app in Hin as [Hin|Hin].
  - apply elem_of_replicate in Hin as [[= -> ->] _]. by vm_compute.
  - apply list_elem_of_singleton in Hin. discriminate.
Defined.

(** X5.  A sweep only removes: what it keeps it keeps with its count, and a
    second sweep on the same day changes nothing more. *)
Theorem sweep_only_removes_once (today : jsstring) (counts : gmap jsstring nat) :
  sweep today counts ⊆ counts
  ∧ sweep today (sweep today counts) = sweep today counts.
Proof.
  split; [apply sweep_subseteq|].
  apply map_eq. intros key. rewrite !sweep_lookup.
  by destruct (includes key today).
Qed.

(** X6.  A sweep and a request of the same day can come in either order:
    the verdict is the same and so are the counters left. *)
Theorem sweep_commutes_with_request (ip today : jsstring)
    (counts : gmap jsstring nat) :
  checkRateLimit ip today (sweep today counts)
  = ((checkRateLimit ip today counts).1,
     sweep today (checkRateLimit ip today counts).2).
Proof.
  destruct (checkRateLimit_cases ip today counts) as [[Hn ->]|[Hn ->]]; cbn [fst snd].
  - apply checkRateLimit_reject. by rewrite sweep_quotaKey.
  - rewrite checkRateLimit_next by by rewrite sweep_quotaKey.
    by rewrite sweep_quotaKey, sweep_insert_today.
Qed.

(** ** The route: what a request costs and what it can bring back *)

Section RouteMore.

Implicit Types (apiKey : option jsstring) (backend : jsstring → backendReply)
  (req : request) (w : world) (today raw : jsstring).

(** The handler, all cases at once. *)
Lemma exploreHandler_cases apiKey backend req sent :
  exploreHandler apiKey backend req sent =
  if negb (hasDestination req) then (DestinationRequired, sent)
  else if negb (hasCredential apiKey) then (ServiceConfigurationError, sent)
  else (match backend (promptOf req) with
        | Completion raw => Recommendations (ensureEnough (parseResponse raw)) raw
        | ErrorStatus message => handleError (backendErrorMessage message)
        | TransportFailure message => handleError message
        end, sent ++ [promptOf req]).
Proof.
  unfold exploreHandler, getRecommendations.
  destruct (hasDestination req); [|done]. cbv zeta. cbn [negb].
  destruct (hasCredential apiKey); cbn [negb]; [|done].
  by destruct (backend (promptOf req)).
Qed.

Lemma handleError_cases message :
  handleError message = ServiceConfigurationError
  ∨ handleError message = FailedToGetRecommendations message.
Proof. unfold handleError. destruct (includes _ _); auto. Qed.

(** The handler never answers for the quota middleware. *)
Lemma exploreHandler_not_429 apiKey backend req sent :
  (exploreHandler apiKey backend req sent).1 ≠ TooManyRequests.
Proof.
  rewrite exploreHandler_cases.
  destruct (negb (hasDestination req)); [done|].
  destruct (negb (hasCredential apiKey)); [done|]. cbn [fst].
  destruct (backend (promptOf req)) as [raw|message|message]; [done| |];
    by destruct (handleError_cases (backendErrorMessage message)) as [->| ->]
    || by destruct (handleError_cases message) as [->| ->].
Qed.

Lemma fallbackTips_long : Forall (λ tip : jsstring, 10 < length tip) fallbackTips.
Proof. unfold fallbackTips. repeat constructor; vm_compute; lia. Qed.

Lemma parseResponse_long raw :
  Forall (λ tip : jsstring, 10 < length tip) (parseResponse raw).
Proof.
  apply Forall_forall. intros tip Hin. rewrite parseResponse_omap in Hin.
  apply subseteq_take, list_elem_of_omap in Hin as (line & _ & Hline).
  by eapply tipOfLine_long.
Qed.

End RouteMore.

(** X7.  A request is answered 429 exactly when its caller's count for the
    day has reached 60.  Any other request raises that count by one,
    whatever it is answered (400, 500 or 200), and no request changes the
    count of another caller. *)
Theorem quota_charged_whatever_the_answer (apiKey : option jsstring)
    (backend : jsstring → backendReply) (today : jsstring) (req : request)
    (w : world) :
  let n := countOf (ip req) today (requestCounts w) in
  let run := exploreDestination apiKey backend today req w in
  (run.1 = TooManyRequests ↔ 60 ≤ n)
  ∧ countOf (ip req) today (requestCounts run.2) = (if decide (n < 60) then n + 1 else n)
  ∧ (∀ other, other ≠ ip req →
       countOf other today (requestCounts run.2)
       = countOf other today (requestCounts w)).
Proof.
  intros n run. subst run.
  destruct (decide (n < 60)) as [Hlt|Hge].
  - rewrite exploreDestination_next by done. cbv zeta. cbn [fst snd requestCounts].
    split; [|split].
    + split; [|lia]. intros H. by apply exploreHandler_not_429 in H.
    + apply countOf_insert_same.
    + intros other Hne. by apply countOf_insert_other.
  - rewrite exploreDestination_reject by (unfold DAILY_LIMIT; fold n; lia).
    cbn [fst snd]. split; [|done]. split; [lia|done].
Qed.

(** A caller at 59 is charged for a request without a destination; another
    caller's count is not touched. *)
Lemma quota_charged_whatever_the_answer_witness :
  let req := {| ip := sampleIp; destination := None;
                timeOfYear := None; preferences := None |} in
  let w := {| requestCounts := {[ quotaKey sampleIp sampleDay := 59;
                                  quotaKey (lit "10.0.0.2") sampleDay := 7 ]};
              sent := [] |} in
  let run := exploreDestination None (λ _, ErrorStatus None) sampleDay req w in
  countOf sampleIp sampleDay (requestCounts run.2) = 60
  ∧ countOf (lit "10.0.0.2") sampleDay (requestCounts run.2) = 7.
Proof.
  intros req w run. subst run.
  destruct (quota_charged_whatever_the_answer None (λ _, ErrorStatus None)
              sampleDay req w) as (_ & Hown & Hother).
  split.
  - etrans; [exact Hown|]. by vm_compute.
  - etrans; [apply (Hother (lit "10.0.0.2")); by vm_compute|]. by vm_compute.
Defined.

(** X8.  A request posts at most one prompt to the backend, the prompt
    built from the request, and never retries, whatever the backend
    answers.  It posts none when the caller has reached the limit, when the
    destination is missing or when the credential is not set; and an answer
    with recommendations comes from exactly one call. *)
Theorem one_call_at_most (apiKey : option jsstring)
    (backend : jsstring → backendReply) (today : jsstring) (req : request)
    (w : world) :
  let run := exploreDestination apiKey backend today req w in
  (sent run.2 = sent w ∨ sent run.2 = sent w ++ [promptOf req])
  ∧ (60 ≤ countOf (ip req) today (requestCounts w)
     ∨ hasDestination req = false ∨ hasCredential apiKey = false →
     sent run.2 = sent w)
  ∧ (∀ tips raw, run.1 = Recommendations tips raw →
       sent run.2 = sent w ++ [promptOf req]).
Proof.
  intros run. subst run.
  destruct (decide (countOf (ip req) today (requestCounts w) < 60)) as [Hlt|Hge].
  - rewrite exploreDestination_next by done. cbv zeta. cbn [fst snd sent].
    rewrite exploreHandler_cases.
    destruct (hasDestination req); cbn [negb fst snd];
      [|split; [by left | by split]].
    destruct (hasCredential apiKey); cbn [negb fst snd];
      [|split; [by left | by split]].
    split; [by right|]. split; [|done].
    intros [?|[?|?]]; [lia | done | done].
  - rewrite exploreDestination_reject by (unfold DAILY_LIMIT; lia).
    cbn [fst snd sent]. split; [by left | by split].
Qed.

(** X9.  The route answers with recommendations only when the caller is
    under the limit, the destination is given, the credential is set and the
    backend returns a completion; the answer then carries the backend's text
    as it came and the tips parsed from it, filled up. *)
Theorem recommendations_only_from_completion (apiKey : option jsstring)
    (backend : jsstring → backendReply) (today : jsstring) (req : request)
    (w : world) (tips : list jsstring) (raw : jsstring) :
  (exploreDestination apiKey backend today req w).1 = Recommendations tips raw →
  countOf (ip req) today (requestCounts w) < 60
  ∧ hasDestination req = true ∧ hasCredential apiKey = true
  ∧ backend (promptOf req) = Completion raw
  ∧ tips = ensureEnough (parseResponse raw).
Proof.
  destruct (decide (countOf (ip req) today (requestCounts w) < 60)) as [Hlt|Hge].
  - rewrite exploreDestination_next by done. cbv zeta. cbn [fst].
    rewrite exploreHandler_cases.
    destruct (hasDestination req); cbn [negb fst]; [|done].
    destruct (hasCredential apiKey); cbn [negb fst]; [|done].
    destruct (backend (promptOf req)) as [raw'|message|message].
    + by intros [= <- <-].
    + by destruct (handleError_cases (backendErrorMessage message)) as [->| ->].
    + by destruct (handleError_cases message) as [->| ->].
  - by rewrite exploreDestination_reject by (unfold DAILY_LIMIT; lia).
Qed.

(** Three tips come back for Paris: the caller was under the limit, the
    credential set, and the text is the backend's. *)
Lemma recommendations_only_from_completion_witness :
  let backend := λ _ : jsstring, Completion threeTips in
  backend (promptOf parisRequest) = Completion threeTips
  ∧ hasCredential (Some (lit "sk-test")) = true.
Proof.
  intros backend.
  destruct (recommendations_only_from_completion (Some (lit "sk-test")) backend
              sampleDay parisRequest freshWorld
              (ensureEnough (parseResponse threeTips)) threeTips)
    as (_ & _ & Hcredential & Hbackend & _); [by vm_compute|].
  by split.
Defined.

(** X10.  In an answer with recommendations every tip is longer than 10 code
    units, the fallback tips as well as the parsed ones, and the tips parsed
    from the backend's text come first, in their order. *)
Theorem tips_long_and_parsed_first (apiKey : option jsstring)
    (backend : jsstring → backendReply) (today : jsstring) (req : request)
    (w w' : world) (tips : list jsstring) (raw : jsstring) :
  exploreDestination apiKey backend today req w = (Recommendations tips raw, w') →
  Forall (λ tip : jsstring, 10 < length tip) tips
  ∧ parseResponse raw `prefix_of` tips.
Proof.
  intros ->%exploreDestination_Recommendations. unfold ensureEnough.
  destruct (decide _).
  - split.
    + apply Forall_app. split; [apply parseResponse_long | apply fallbackTips_long].
    + by apply prefix_app_r.
  - split; [apply parseResponse_long | done].
Qed.

Lemma tips_long_and_parsed_first_witness :
  let run := exploreDestination (Some (lit "sk-test")) (λ _, Completion threeTips)
               sampleDay parisRequest freshWorld in
  ∃ tips,
    run.1 = Recommendations tips threeTips
    ∧ Forall (λ tip : jsstring, 10 < length tip) tips
    ∧ parseResponse threeTips `prefix_of` tips.
Proof.
  intros run.
  destruct run as [res w'] eqn:Hrun.
  assert (res = Recommendations (ensureEnough (parseResponse threeTips)) threeTips)
    as -> by (apply (f_equal fst) in Hrun; by vm_compute in Hrun).
  exists (ensureEnough (parseResponse threeTips)). split; [done|].
  by apply (tips_long_and_parsed_first (Some (lit "sk-test"))
              (λ _, Completion threeTips) sampleDay parisRequest freshWorld w').
Defined.

(** ** ResponseParser: the shape of the tips and of the input *)

Section ParserMore.

Implicit Types (s line rest tip ws : jsstring) (tips : list jsstring).

Local Abbreviation spaces ws := (Forall (λ c, is_space c = true) ws).

(** *** Trimming *)

Lemma trimStart_spaces ws s : spaces ws → trimStart (ws ++ s) = trimStart s.
Proof. induction 1 as [|c ws Hc _ IH]; simpl; [done|]. by rewrite Hc. Qed.

Lemma trimStart_all_spaces ws : spaces ws → trimStart ws = [].
Proof.
  intros H. rewrite <- (app_nil_r ws). by rewrite trimStart_spaces.
Qed.

Lemma trimEnd_spaces s ws : spaces ws → trimEnd (s ++ ws) = trimEnd s.
Proof.
  intros H. unfold trimEnd. rewrite reverse_app, trimStart_spaces; [done|].
  by apply Forall_reverse.
Qed.

Lemma trimEnd_spec s :
  ∃ ws, spaces ws ∧ s = trimEnd s ++ ws ∧ noTrailingSpace (trimEnd s).
Proof.
  unfold trimEnd, noTrailingSpace.
  destruct (trimStart_spec (reverse s)) as (ws & Hws & Hs & Hrest).
  exists (reverse ws). split; [by apply Forall_reverse|]. split.
  - rewrite <- reverse_app, <- Hs. by rewrite reverse_involutive.
  - by rewrite reverse_involutive.
Qed.

Lemma trim_spec s :
  ∃ ws1 ws2, spaces ws1 ∧ spaces ws2 ∧ s = ws1 ++ trim s ++ ws2
             ∧ noLeadingSpace (trim s) ∧ noTrailingSpace (trim s).
Proof.
  unfold trim.
  destruct (trimStart_spec s) as (ws1 & Hws1 & Hs & Hlead).
  destruct (trimEnd_spec (trimStart s)) as (ws2 & Hws2 & Ht & Htrail).
  exists ws1, ws2. split; [done|]. split; [done|]. split; [|split; [|done]].
  - by rewrite <- Ht.
  - destruct (trimEnd (trimStart s)) as [|c t] eqn:He; [done|].
    rewrite Ht in Hlead. exact Hlead.
Qed.

(** White space around a line does not count. *)
Lemma trim_spaces ws1 s ws2 :
  spaces ws1 → spaces ws2 → trim (ws1 ++ s ++ ws2) = trim s.
Proof.
  intros H1 H2. unfold trim. rewrite trimStart_spaces by done. clear ws1 H1.
  induction s as [|c s IH]; simpl.
  - by rewrite trimStart_all_spaces.
  - destruct (is_space c); [done|].
    by rewrite app_comm_cons, trimEnd_spaces.
Qed.

(** *** Lines *)

Lemma splitLines_nonempty s : splitLines s ≠ [].
Proof.
  destruct s as [|c s]; simpl; [done|].
  destruct (c =? LF)%N; [done|]. by destruct (splitLines s).
Qed.

Lemma splitLines_app a b :
  splitLines (a ++ LF :: b) = splitLines a ++ splitLines b.
Proof.
  induction a as [|c a IH]; simpl.
  - done.
  - destruct (c =? LF)%N; rewrite IH; [done|].
    pose proof (splitLines_nonempty a). by destruct (splitLines a).
Qed.

Lemma splitLines_no_LF s line : line ∈ splitLines s → LF ∉ line.
Proof.
  revert line. induction s as [|c s IH]; simpl; intros line Hin.
  - apply list_elem_of_singleton in Hin as ->. apply not_elem_of_nil.
  - destruct (c =? LF)%N eqn:Hc.
    + apply elem_of_cons in Hin as [->|Hin]; [apply not_elem_of_nil | by apply IH].
    + apply N.eqb_neq in Hc.
      destruct (splitLines s) as [|l ls]; simpl in *.
      * apply list_elem_of_singleton in Hin as ->.
        rewrite not_elem_of_cons. split; [done | apply not_elem_of_nil].
      * apply elem_of_cons in Hin as [->|Hin].
        -- rewrite not_elem_of_cons. split; [done|]. apply IH. left.
        -- apply IH. by right.
Qed.

(** *** Tips *)

(** What is left after a marker is the end of the line, and starts with no
    white space. *)
Lemma afterBullet_suffix line rest :
  afterBullet line = Some rest → (∃ pre, line = pre ++ rest) ∧ noLeadingSpace rest.
Proof.
  intros (c & ws & _ & _ & _ & -> & Hrest)%afterBullet_Some.
  split; [|done]. by exists (c :: ws).
Qed.

Lemma afterNumber_suffix line rest :
  afterNumber line = Some rest → (∃ pre, line = pre ++ rest) ∧ noLeadingSpace rest.
Proof.
  intros (ds & ws & _ & _ & _ & _ & -> & Hrest)%afterNumber_Some.
  split; [|done]. exists (ds ++ [46%N] ++ ws). by rewrite <- !app_assoc.
Qed.

Lemma tipOfLine_suffix line tip :
  tipOfLine line = Some tip →
  (∃ pre, trim line = pre ++ tip) ∧ noLeadingSpace tip ∧ tip ≠ [].
Proof.
  intros Htip.
  assert (tip ≠ []) as Hne.
  { apply tipOfLine_long in Htip. by destruct tip; [simpl in Htip; lia|]. }
  assert (∀ r, keepLong r = Some tip → r = tip) as Hkeep.
  { intros r. unfold keepLong. destruct (decide _); [|done]. by intros [= ->]. }
  destruct (afterBullet (trim line)) as [rest|] eqn:Hb.
  - rewrite (tipOfLine_bullet _ _ Hb) in Htip. apply Hkeep in Htip.
    apply afterBullet_suffix in Hb as [[pre Hpre] Hlead].
    unfold replaceNumber in Htip.
    destruct (afterNumber rest) as [rest'|] eqn:Hn; simpl in Htip; subst.
    + apply afterNumber_suffix in Hn as [[pre' ->] Hlead'].
      split; [|done]. exists (pre ++ pre'). by rewrite Hpre, <- app_assoc.
    + split; [|done]. by exists pre.
  - destruct (afterNumber (trim line)) as [rest|] eqn:Hn.
    + rewrite (tipOfLine_number _ _ Hn) in Htip. apply Hkeep in Htip. subst.
      by apply afterNumber_suffix in Hn as [? ?].
    + by rewrite tipOfLine_none in Htip.
Qed.

(** The end of a string that does not end with white space does not end
    with white space. *)
Lemma noTrailingSpace_suffix pre tip :
  tip ≠ [] → noTrailingSpace (pre ++ tip) → noTrailingSpace tip.
Proof.
  unfold noTrailingSpace. rewrite reverse_app. intros Hne.
  destruct (reverse tip) as [|c r] eqn:Hr; [|done].
  apply (f_equal reverse) in Hr. rewrite reverse_involutive in Hr. done.
Qed.

Lemma take_prefix_app {A} n (l k : list A) : take n l `prefix_of` take n (l ++ k).
Proof. rewrite take_app. by apply prefix_app_r. Qed.

End ParserMore.

(** X11.  Every tip [parseResponse] returns is a clean single line: it
    holds no line feed, and neither starts nor ends with white space (so no
    carriage return of a CRLF text and no indentation is left on it). *)
Theorem tips_are_trimmed_lines (rawResponse : jsstring) :
  Forall (λ tip, (LF ∉ tip) ∧ noLeadingSpace tip ∧ noTrailingSpace tip)
    (parseResponse rawResponse).
Proof.
  apply Forall_forall. intros tip Hin. rewrite parseResponse_omap in Hin.
  apply subseteq_take, list_elem_of_omap in Hin as (line & Hline & Htip).
  apply tipOfLine_suffix in Htip as ([pre Hpre] & Hlead & Hne).
  destruct (trim_spec line) as (ws1 & ws2 & _ & _ & Hs & _ & Htrail).
  split; [|split; [done|]].
  - intros Hlf. apply (splitLines_no_LF _ _ Hline).
    rewrite Hs, Hpre, !elem_of_app. auto.
  - rewrite Hpre in Htrail. by eapply noTrailingSpace_suffix.
Qed.

(** X12.  More text never takes a tip back: the tips of a text are the
    first tips of that text followed by further lines, and once a text has
    given 10 tips no further line changes the result. *)
Theorem tips_survive_more_lines (a b : jsstring) :
  parseResponse a `prefix_of` parseResponse (a ++ LF :: b)
  ∧ (length (parseResponse a) = 10 →
     parseResponse (a ++ LF :: b) = parseResponse a).
Proof.
  rewrite !parseResponse_omap, splitLines_app, omap_app. split.
  - apply take_prefix_app.
  - rewrite length_take. intros Hlen. apply take_app_le. lia.
Qed.

(** Twelve tips, then more lines: the same ten tips. *)
Lemma tips_survive_more_lines_witness :
  parseResponse (twelveTips ++ LF :: threeLines) = parseResponse twelveTips.
Proof.
  apply (tips_survive_more_lines twelveTips threeLines). by vm_compute.
Defined.

(** X13.  White space around a line does not change what the loop makes of
    it: indentation before the marker and white space after the text, a
    carriage return included, are ignored. *)
Theorem line_whitespace_ignored (tips : list jsstring) (ws1 line ws2 : jsstring) :
  Forall (λ c, is_space c = true) ws1 → Forall (λ c, is_space c = true) ws2 →
  parseLine tips (ws1 ++ line ++ ws2) = parseLine tips line.
Proof.
  intros H1 H2. unfold parseLine. by rewrite trim_spaces.
Qed.

(** A bullet indented by a tab and two spaces, with a carriage return at the
    end. *)
Lemma line_whitespace_ignored_witness :
  parseLine [] ([9; 32; 32]%N ++ lit "- See the cathedral" ++ [13%N])
  = [lit "See the cathedral"].
Proof.
  rewrite (line_whitespace_ignored [] [9; 32; 32]%N (lit "- See the cathedral") [13%N]).
  - by vm_compute.
  - repeat constructor.
  - repeat constructor.
Defined.

(** ** WeatherAdvisor: what the advice can be, and missing fields *)

Section AdvisorMore.

Lemma conditions_cases w : conditions w = Other ∨ conditions w ≠ Other.
Proof. destruct (conditions w); auto. Qed.

Lemma advise_throws w :
  conditions w = Other → ∃ message, getWeatherRecommendations w = Throw message.
Proof. intros H. unfold getWeatherRecommendations. rewrite H. simpl. eauto. Qed.

(** The function throws for one reason only. *)
Lemma advise_Throw_iff w :
  (∃ message, getWeatherRecommendations w = Throw message) ↔ conditions w = Other.
Proof.
  split; [|apply advise_throws].
  intros [message Hm]. destruct (conditions_cases w) as [|Hc]; [done|].
  destruct (advise_returns w Hc) as [a Ha]. congruence.
Qed.

End AdvisorMore.

(** X14.  The weather route answers 400 exactly when the body has no
    weather data, and 500 exactly when the conditions it is given are
    neither a string nor missing; every other reading, whatever its numbers
    and with or without them, gets its advice. *)
Theorem weather_route_answers (body : option weatherData) :
  (weatherRecommendations body = WeatherDataRequired ↔ body = None)
  ∧ ((∃ message, weatherRecommendations body = WeatherFailed message)
     ↔ ∃ w, body = Some w ∧ conditions w = Other)
  ∧ ((∃ a, weatherRecommendations body = WeatherAdvice a)
     ↔ ∃ w, body = Some w ∧ conditions w ≠ Other).
Proof.
  destruct body as [w|]; simpl.
  - destruct (conditions_cases w) as [Hc|Hc].
    + destruct (advise_throws w Hc) as [message ->].
      split; [done|]. split.
      * split; [eauto | eauto].
      * split; [by intros [? ?] | by intros (? & [= <-] & ?)].
    + destruct (advise_returns w Hc) as [a ->].
      split; [done|]. split.
      * split; [by intros [? ?] | by intros (? & [= <-] & ?)].
      * split; eauto.
  - split; [done|].
    split; (split; [by intros [? ?] | by intros (? & ? & ?)]).
Qed.

(** X15.  Outdoor advice is never given against the weather: when the
    recommendation is perfect-outdoor or good-outdoor, the conditions hold
    no bad-weather word, the wind is not above 25 and the temperature is
    neither above 95 nor below 25; perfect-outdoor moreover means a
    temperature in [70,85] and a uvindex not above 8, good-outdoor a
    temperature in [60,90]. *)
Theorem outdoor_only_in_fair_weather (w : weatherData) (a : advice) :
  getWeatherRecommendations w = Normal a →
  recommendation a = lit "perfect-outdoor" ∨ recommendation a = lit "good-outdoor" →
  (containsAnyCase (conditionsText w) (lit "rain") = false
   ∧ containsAnyCase (conditionsText w) (lit "storm") = false
   ∧ containsAnyCase (conditionsText w) (lit "snow") = false)
  ∧ (25 <? windspeed w)%float = false
  ∧ (95 <? temp w)%float = false ∧ (temp w <? 25)%float = false
  ∧ (recommendation a = lit "perfect-outdoor" →
     (70 <=? temp w)%float = true ∧ (temp w <=? 85)%float = true
     ∧ (8 <? uvindex w)%float = false)
  ∧ (recommendation a = lit "good-outdoor" →
     (60 <=? temp w)%float = true ∧ (temp w <=? 90)%float = true).
Proof.
  intros Hret Hrec.
  destruct (conditions_cases w) as [Hc|Hc].
  { destruct (advise_throws w Hc) as [message Hm]. congruence. }
  revert Hret. unfold getWeatherRecommendations.
  rewrite (lowerConditions_text _ Hc). fold (conditionsText w).
  rewrite (includes_toLowerCase _ _ lower_rain),
    (includes_toLowerCase _ _ lower_storm),
    (includes_toLowerCase _ _ lower_snow).
  case_tests; intros [= <-]; cbn [recommendation] in *;
    try (destruct Hrec as [Hrec|Hrec]; vm_compute in Hrec; discriminate);
    repeat match goal with
           | H : (_ || _) = false |- _ => apply orb_false_iff in H as [? ?]
           | H : (_ && _) = true |- _ => apply andb_true_iff in H as [? ?]
           | H : negb _ = true |- _ => apply negb_true_iff in H
           end;
    repeat split; try done;
    try (intros Hrec'; vm_compute in Hrec'; discriminate).
Qed.

(** A clear day at 75 degrees with a uvindex of 9 is good-outdoor: the wind
    is not above 25 and the temperature is in [60,90]. *)
Lemma outdoor_only_in_fair_weather_witness :
  let w := {| temp := 75; conditions := Text (lit "clear");
              windspeed := 5; uvindex := 9 |} in
  (25 <? windspeed w)%float = false
  ∧ (60 <=? temp w)%float = true ∧ (temp w <=? 90)%float = true.
Proof.
  intros w.
  destruct (outdoor_only_in_fair_weather w
              {| recommendation := lit "good-outdoor";
                 message := lit "Great for outdoor activities";
                 reason := lit "Good weather - use sun protection";
                 color := lit "#4CAF50" |})
    as (_ & Hwind & _ & _ & _ & Hgood); [by vm_compute | by right |].
  split; [exact Hwind | by apply Hgood].
Defined.

(** X16.  A missing number never trips a rule: a reading without uvindex
    gets the advice of the same reading with uvindex 0, a reading without
    windspeed the advice of the same reading with windspeed 0, and a reading
    without temp gets stay-indoors or moderate-outdoor. *)
Theorem missing_numbers_trip_no_rule (t ws uv : float) (c : conditionsValue) :
  getWeatherRecommendations
    {| temp := t; conditions := c; windspeed := ws; uvindex := nan |}
  = getWeatherRecommendations
      {| temp := t; conditions := c; windspeed := ws; uvindex := 0 |}
  ∧ getWeatherRecommendations
      {| temp := t; conditions := c; windspeed := nan; uvindex := uv |}
    = getWeatherRecommendations
        {| temp := t; conditions := c; windspeed := 0; uvindex := uv |}
  ∧ (∀ a,
       getWeatherRecommendations
         {| temp := nan; conditions := c; windspeed := ws; uvindex := uv |}
       = Normal a →
       recommendation a = lit "stay-indoors"
       ∨ recommendation a = lit "moderate-outdoor").
Proof.
  split; [|split].
  - unfold getWeatherRecommendations. cbn [temp conditions windspeed uvindex].
    change (8 <? nan)%float with false. by change (8 <? 0)%float with false.
  - unfold getWeatherRecommendations. cbn [temp conditions windspeed uvindex].
    change (25 <? nan)%float with false. by change (25 <? 0)%float with false.
  - intros a. unfold getWeatherRecommendations.
    cbn [temp conditions windspeed uvindex].
    change (95 <? nan)%float with false. change (nan <? 25)%float with false.
    change (70 <=? nan)%float with false. change (60 <=? nan)%float with false.
    cbn [andb].
    destruct (lowerConditions c); [|done].
    case_tests; intros [= <-]; auto.
Qed.

(** A reading with nothing but its conditions. *)
Lemma missing_numbers_trip_no_rule_witness :
  ∃ a,
    getWeatherRecommendations
      {| temp := nan; conditions := Text (lit "Partly cloudy");
         windspeed := nan; uvindex := nan |} = Normal a
    ∧ recommendation a = lit "moderate-outdoor".
Proof.
  destruct (missing_numbers_trip_no_rule nan nan nan (Text (lit "Partly cloudy")))
    as (_ & _ & H).
  eexists. split; [by vm_compute|].
  edestruct H as [Hrec|Hrec]; [by vm_compute | | exact Hrec].
  vm_compute in Hrec. discriminate.
Defined.

(** X17.  Whatever the reading, the advice returned is one of eight fixed
    advices: five recommendation codes, each always with the same message,
    and eight reasons, each always with the same colour. *)
Theorem advice_from_fixed_table (w : weatherData) (a : advice) :
  getWeatherRecommendations w = Normal a →
  a ∈ adviceTable
  ∧ (∀ b, b ∈ adviceTable →
       (recommendation b = recommendation a → message b = message a)
       ∧ (reason b = reason a → color b = color a)).
Proof.
  intros Hret.
  assert (a ∈ adviceTable) as Hin.
  { revert Hret. unfold getWeatherRecommendations.
    destruct (lowerConditions (conditions w)); [|done].
    case_tests; intros [= <-]; apply list_elem_of_In; simpl; auto 10. }
  split; [done|].
  intros b Hb.
  unfold adviceTable in Hin, Hb.
  repeat (apply elem_of_cons in Hin as [->|Hin]);
    try (by apply elem_of_nil in Hin);
    repeat (apply elem_of_cons in Hb as [->|Hb]);
    try (by apply elem_of_nil in Hb);
    (split; intros Heq; [first [reflexivity | vm_compute in Heq; discriminate] ..]).
Qed.

Lemma advice_from_fixed_table_witness :
  ∃ a,
    getWeatherRecommendations
      {| temp := 101; conditions := Null; windspeed := 3; uvindex := 11 |} = Normal a
    ∧ a ∈ adviceTable.
Proof.
  eexists. split; [by vm_compute|].
  apply (advice_from_fixed_table
           {| temp := 101; conditions := Null; windspeed := 3; uvindex := 11 |}).
  by vm_compute.
Defined.

(** ** TemperatureConverter: reading a display back *)

Section DisplayMore.

Lemma lit_String a s : lit (String a s) = N_of_ascii a :: lit s.
Proof. reflexivity. Qed.

Lemma string_of_uint_digits d :
  Forall (λ c, is_digit c = true) (lit (NilEmpty.string_of_uint d)).
Proof.
  induction d; cbn [NilEmpty.string_of_uint]; rewrite ?lit_String;
    constructor; done.
Qed.

Lemma decimal_digits n : Forall (λ c, is_digit c = true) (decimal n).
Proof.
  unfold decimal, NilZero.string_of_uint.
  destruct (N.to_uint n) eqn:Hd; try (rewrite <- Hd; apply string_of_uint_digits).
  by repeat constructor.
Qed.

Lemma decimal_no_degree n : DEGREE ∉ decimal n.
Proof.
  intros Hin. pose proof (decimal_digits n) as Hd.
  rewrite Forall_forall in Hd. by apply Hd in Hin.
Qed.

(** The text of a number holds no degree sign. *)
Lemma Number_toString_no_degree x digits :
  Number_toString x = Some digits → DEGREE ∉ digits.
Proof.
  unfold Number_toString.
  destruct (Prim2SF x) as [s|s| |s m e].
  - intros [= <-]. apply (bool_decide_unpack _). by vm_compute.
  - intros [= <-]. destruct s; apply (bool_decide_unpack _); by vm_compute.
  - intros [= <-]. apply (bool_decide_unpack _). by vm_compute.
  - destruct (integerValue m e) as [n|]; [|done].
    destruct (n <=? 2 ^ 53)%Z; [|done]. intros [= <-].
    rewrite elem_of_app. intros [Hin|Hin].
    + destruct s; [|by apply elem_of_nil in Hin].
      apply list_elem_of_singleton in Hin. discriminate.
    + by apply decimal_no_degree in Hin.
Qed.

(** Two texts cut at their first separator. *)
Lemma first_separator (c : N) (a a' u u' : jsstring) :
  c ∉ a → c ∉ a' → a ++ c :: u = a' ++ c :: u' → a = a' ∧ u = u'.
Proof.
  intros Ha Ha' [l [[-> Heq]|[-> Heq]]]%app_eq_app.
  - destruct l as [|c' l]; simpl in Heq.
    + injection Heq as ->. by rewrite app_nil_r.
    + injection Heq as <- _. exfalso. apply Ha. rewrite elem_of_app. right. left.
  - destruct l as [|c' l]; simpl in Heq.
    + injection Heq as ->. by rewrite app_nil_r.
    + injection Heq as <- _. exfalso. apply Ha'. rewrite elem_of_app. right. left.
Qed.

End DisplayMore.

(** X18.  A display can be read back: two displays that are the same text
    show the same unit and the same number, for the text of a number holds
    no degree sign and the unit is what follows the first one. *)
Theorem display_reads_back (temp temp' : float) (unit unit' display : jsstring) :
  getTemperatureDisplay temp unit = Some display →
  getTemperatureDisplay temp' unit' = Some display →
  unit = unit'
  ∧ Number_toString (convertTemperature temp unit)
    = Number_toString (convertTemperature temp' unit').
Proof.
  unfold getTemperatureDisplay. cbv zeta.
  destruct (Number_toString (convertTemperature temp unit)) as [digits|] eqn:Hd;
    [|done].
  destruct (Number_toString (convertTemperature temp' unit')) as [digits'|] eqn:Hd';
    [|done].
  intros [= <-] [= Heq].
  apply Number_toString_no_degree in Hd, Hd'.
  apply first_separator in Heq as [-> ->]; done.
Qed.

(** 98.6 and 99.25 degrees Fahrenheit show the same text, 99 degrees F. *)
Lemma display_reads_back_witness :
  Number_toString (convertTemperature f98_6 (lit "F"))
  = Number_toString (convertTemperature 99.25 (lit "F")).
Proof.
  apply (display_reads_back f98_6 99.25 (lit "F") (lit "F")
           (lit "99" ++ [DEGREE] ++ lit "F")); by vm_compute.
Defined.

(** ** PromptBuilder: what the prompt holds *)

Section PromptMore.

Implicit Types (d s : jsstring) (p : option clientPreferences).

(** The prompt, clause by clause. *)
Lemma buildPrompt_clauses d t p :
  buildPrompt d t p =
  openingSentence d ++ timeClause t
  ++ budgetClause (budget (default noPreferences p))
  ++ interestsClause (interests (default noPreferences p))
  ++ groupClause (groupSize (default noPreferences p))
  ++ closingBlock.
Proof.
  unfold buildPrompt, openingSentence, timeClause, budgetClause,
    interestsClause, groupClause. cbv zeta.
  destruct (default noPreferences p) as [b ints g]. cbn [budget interests groupSize].
  destruct t as [t|]; [destruct (truthy t)|];
    (destruct b as [b|]; [destruct (truthy b)|]);
    (destruct ints as [|i ints]; [rewrite decide_False by (simpl; lia)
                             | rewrite decide_True by (simpl; lia)]);
    (destruct g as [g|]; [destruct (g =? 0)%N|]);
    by rewrite <- ?app_assoc, ?app_nil_r.
Qed.

Lemma includes_middle pre s suf : includes (pre ++ s ++ suf) s = true.
Proof. apply includes_true. by exists pre, suf. Qed.

Lemma includes_app_l s t pat : includes s pat = true → includes (s ++ t) pat = true.
Proof.
  intros (pre & suf & ->)%includes_true. apply includes_true.
  exists pre, (suf ++ t). by rewrite <- !app_assoc.
Qed.

Lemma includes_app_r s t pat : includes t pat = true → includes (s ++ t) pat = true.
Proof.
  intros (pre & suf & ->)%includes_true. apply includes_true.
  exists (s ++ pre), suf. by rewrite <- !app_assoc.
Qed.

Lemma join_includes sep parts s : s ∈ parts → includes (join sep parts) s = true.
Proof.
  induction parts as [|part parts IH]; intros Hin; [by apply elem_of_nil in Hin|].
  apply elem_of_cons in Hin as [->|Hin].
  - destruct parts; simpl.
    + apply (includes_suffix []).
    + apply (includes_middle []).
  - destruct parts as [|part' parts]; [by apply elem_of_nil in Hin|].
    change (join sep (part :: part' :: parts))
      with (part ++ sep ++ join sep (part' :: parts)).
    apply includes_app_r, includes_app_r. by apply IH.
Qed.

End PromptMore.

(** X19.  The prompt carries what the traveller gave: it contains the
    destination, the time of year when one is given, every interest, and
    the digits of a group size from 1 to 2^53, the whole numbers a float
    holds and prints digit by digit. *)
Theorem prompt_carries_inputs (d : jsstring) (t : option jsstring)
    (p : option clientPreferences) :
  let prompt := buildPrompt d t p in
  let prefs := default noPreferences p in
  includes prompt d = true
  ∧ (∀ s, t = Some s → includes prompt s = true)
  ∧ (∀ i, i ∈ interests prefs → includes prompt i = true)
  ∧ (∀ g, groupSize prefs = Some g → g ≠ 0%N → (g ≤ 2 ^ 53)%N →
       includes prompt (decimal g) = true).
Proof.
  intros prompt prefs. subst prompt prefs. rewrite buildPrompt_clauses.
  split; [|split; [|split]].
  - apply includes_app_l. apply includes_middle.
  - intros s ->. apply includes_app_r, includes_app_l. unfold timeClause.
    destruct s as [|c s]; [done|]. apply includes_middle.
  - intros i Hi. do 3 apply includes_app_r. apply includes_app_l.
    destruct (interests _) as [|i0 ints] eqn:His; [by apply elem_of_nil in Hi|].
    cbn [interestsClause]. apply includes_app_r, includes_app_l.
    by apply join_includes.
  - intros g -> Hg _. do 4 apply includes_app_r. apply includes_app_l.
    cbn [groupClause]. rewrite (proj2 (N.eqb_neq g 0) Hg).
    apply includes_middle.
Qed.

(** A week-end in Lisbon for four, with two interests. *)
Lemma prompt_carries_inputs_witness :
  let p := Some {| budget := Some (lit "low");
                   interests := [lit "food"; lit "street art"];
                   groupSize := Some 4%N |} in
  let prompt := buildPrompt (lit "Lisbon") (Some (lit "early May")) p in
  includes prompt (lit "early May") = true
  ∧ includes prompt (lit "street art") = true
  ∧ includes prompt (lit "4") = true.
Proof.
  intros p prompt.
  destruct (prompt_carries_inputs (lit "Lisbon") (Some (lit "early May")) p)
    as (_ & Ht & Hi & Hg).
  split; [by apply Ht|]. split.
  - apply Hi. cbn. right. left.
  - apply (Hg 4%N); [done | done | by vm_compute].
Defined.

(** X20.  An empty field says as little as a missing one: an empty time of
    year, an empty budget, a group size of zero and missing preferences each
    give the prompt of the request without that field; with nothing but the
    destination the prompt is the opening sentence and the closing block. *)
Theorem prompt_ignores_empty_fields (d : jsstring) (t : option jsstring)
    (b : option jsstring) (ints : list jsstring) (g : option N) :
  buildPrompt d (Some []) (Some {| budget := b; interests := ints; groupSize := g |})
  = buildPrompt d None (Some {| budget := b; interests := ints; groupSize := g |})
  ∧ buildPrompt d t (Some {| budget := Some []; interests := ints; groupSize := g |})
    = buildPrompt d t (Some {| budget := None; interests := ints; groupSize := g |})
  ∧ buildPrompt d t (Some {| budget := b; interests := ints; groupSize := Some 0%N |})
    = buildPrompt d t (Some {| budget := b; interests := ints; groupSize := None |})
  ∧ buildPrompt d t (Some noPreferences) = buildPrompt d t None
  ∧ buildPrompt d None None = openingSentence d ++ closingBlock.
Proof.
  rewrite !buildPrompt_clauses. cbn [default budget interests groupSize].
  split; [done|]. split; [done|]. split; [done|]. split; [done|].
  cbn [timeClause budgetClause interestsClause groupClause noPreferences
       budget interests groupSize app].
  reflexivity.
Qed.

(** X21.  Every prompt opens with the sentence that names the destination
    and closes with the block that asks for the sections and the bullet
    points the parser looks for; the clauses in between only add to it. *)
Theorem prompt_opening_and_closing (d : jsstring) (t : option jsstring)
    (p : option clientPreferences) :
  openingSentence d `prefix_of` buildPrompt d t p
  ∧ closingBlock `suffix_of` buildPrompt d t p
  ∧ length (buildPrompt d None None) ≤ length (buildPrompt d t p).
Proof.
  rewrite !buildPrompt_clauses. split; [|split].
  - by eexists.
  - by do 5 apply suffix_app_r.
  - rewrite !length_app.
    cbn [default noPreferences budget interests groupSize timeClause
         budgetClause interestsClause groupClause length].
    lia.
Qed.

(** X22.  A budget outside the table is not guarded: any other non-empty
    budget (the names an object inherits apart) makes the prompt ask for
    'undefined' activities, where "low", "medium" and "high" name a price
    tier. *)
Theorem unknown_budget_prints_undefined (d b : jsstring) (t : option jsstring)
    (ints : list jsstring) (g : option N) :
  b ≠ [] → b ∉ [lit "low"; lit "medium"; lit "high"] → b ∉ inheritedNames →
  includes
    (buildPrompt d t (Some {| budget := Some b; interests := ints; groupSize := g |}))
    (lit " Focus on undefined activities.") = true.
Proof.
  intros Hb Htable _. rewrite buildPrompt_clauses.
  apply includes_app_r, includes_app_r, includes_app_l.
  change (default noPreferences (Some ?x)) with x.
  cbn [budget budgetClause].
  destruct b as [|c b]; [done|]. cbn [truthy].
  rewrite !not_elem_of_cons in Htable. destruct Htable as (Hlow & Hmedium & Hhigh & _).
  unfold budgetText. rewrite !decide_False by done.
  apply (includes_suffix []).
Qed.

Lemma unknown_budget_prints_undefined_witness :
  includes
    (buildPrompt (lit "Oslo") None
       (Some {| budget := Some (lit "luxury"); interests := []; groupSize := None |}))
    (lit " Focus on undefined activities.") = true.
Proof.
  apply (unknown_budget_prints_undefined (lit "Oslo") (lit "luxury") None [] None);
    [done | | ]; apply (bool_decide_unpack _); by vm_compute.
Defined.
